(** * burg.hpp: autoregressive estimation, Toeplitz solve, empirical variances

    A shallow embedding of [src/burg.hpp] and the properties its
    specification states about it.

    - The working precision [Value] is instantiated with the canonical
      rationals [Qc] (an exact field with decidable Leibniz equality).
      Division is [Qc]'s total division (the code does not guard its
      divisions either); where a theorem needs a quotient to be the
      quotient, it has the hypothesis that the divisor is not zero.
    - [std::size_t] is a 64-bit unsigned integer: a [Z] reduced with
      [wrap] after every operation that can leave the range.  Loop
      counters and vector indices are bounded by vector lengths; they are
      kept in [nat].
    - [std::vector] is a [list]; [operator[]] outside the vector is
      undefined behaviour and stops the run with [OutOfRange]. *)

From Stdlib Require Import QArith Qcanon ZArith Lia.
From stdpp Require Import base numbers list.

(** ** Outcomes *)

Inductive stop : Type :=
| InvalidArgument      (* throw std::invalid_argument(...) *)
| OutOfRange           (* read or write outside a vector or range *)
| IndeterminateRead    (* read of a member that was never initialised *)
| AssertionFailed      (* assert(...) with a false condition *)
| FuelExhausted.       (* the bound given to a while loop did not suffice *)

Inductive result (A : Type) : Type :=
| Ok (a : A)
| Stop (s : stop).
Arguments Ok {A} a.
Arguments Stop {A} s.

#[global] Instance result_ret : MRet result := λ A a, Ok a.
#[global] Instance result_bind : MBind result := λ A B k m,
  match m with
  | Ok a => k a
  | Stop s => Stop s
  end.

Definition assert (c : bool) : result unit :=
  if c then Ok tt else Stop AssertionFailed.

(** ** std::size_t *)

Definition size_bits : Z := 64.
Definition size_modulus : Z := 2 ^ size_bits.
Definition size_max : Z := size_modulus - 1.
Definition wrap (z : Z) : Z := z mod size_modulus.

(** ** std::vector and iterator ranges *)

Section Vector.
Context {A : Type}.

(** [v[i]] as an rvalue. *)
Definition vget (v : list A) (i : nat) : result A :=
  match v !! i with
  | Some x => Ok x
  | None => Stop OutOfRange
  end.

(** [v[i] = x]. *)
Definition vset (v : list A) (i : nat) (x : A) : result (list A) :=
  if decide (i < length v)%nat then Ok (<[i:=x]> v) else Stop OutOfRange.

(** The range [[v.begin() + lo, v.begin() + hi)]. *)
Definition vrange (v : list A) (lo hi : nat) : result (list A) :=
  if decide (lo ≤ hi ∧ hi ≤ length v)%nat
  then Ok (take (hi - lo) (drop lo v))
  else Stop OutOfRange.

(** The open-ended range that starts at [v.begin() + lo]. *)
Definition vfrom (v : list A) (lo : nat) : result (list A) :=
  if decide (lo ≤ length v)%nat then Ok (drop lo v) else Stop OutOfRange.
End Vector.

(** ** Loops *)

(** [for (size n = lo; n < lo + count; ++n) body] on the loop state [s]. *)
Fixpoint for_range {S : Type} (lo count : nat)
    (body : nat → S → result S) (s : S) : result S :=
  match count with
  | O => Ok s
  | Datatypes.S c => s' ← body lo s; for_range (Datatypes.S lo) c body s'
  end.

(** [while (i /= 2) body]: [i] is halved before each test. *)
Fixpoint while_halving {S : Type} (fuel : nat) (i : nat)
    (body : nat → S → result S) (s : S) : result (nat * S) :=
  match fuel with
  | O => Stop FuelExhausted
  | Datatypes.S fuel' =>
      let i' := (i / 2)%nat in
      if (i' =? 0)%nat then Ok (i', s)
      else s' ← body i' s; while_halving fuel' i' body s'
  end.

Local Open Scope Qc_scope.

(** ** The working precision *)

Abbreviation Value := Qc (only parsing).

(** Conversion of an integer to [Value]. *)
Definition Value_of_Z (z : Z) : Value := Qc_of_Z z.
Definition Value_of_nat (n : nat) : Value := Value_of_Z (Z.of_nat n).

(** [std::inner_product(first1, last1, first2, init)]: the second range
    has to supply an element for each element of the first. *)
Fixpoint inner_product (r1 r2 : list Value) (init : Value) : result Value :=
  match r1 with
  | [] => Ok init
  | x :: r1' =>
      match r2 with
      | [] => Stop OutOfRange
      | y :: r2' => inner_product r1' r2' (init + x * y)
      end
  end.

(** ** burg_method *)

(** Lines 145-162: the mean by pairwise summation. *)

(** [for (size i = 0; i < N; ++i) b[i/2] += f[i];] *)
Definition pairwise_copy (f b : list Value) : result (list Value) :=
  for_range 0 (length f)
    (λ i b, fi ← vget f i;
            bi ← vget b (i / 2)%nat;
            vset b (i / 2)%nat (bi + fi)) b.

(** [size t = N, i = !!N; while (t /= 2) i *= 2;] *)
Definition pairwise_start (N : nat) : result nat :=
  '(_, i) ← while_halving (Datatypes.S N) N
             (λ _ i, Ok (i * 2)%nat) (if (N =? 0)%nat then 0%nat else 1%nat);
  Ok i.

(** [for (size_t j = 0; j < i; ++j) b[j] = b[2*j] + b[2*j+1];] *)
Definition pairwise_fold (i : nat) (b : list Value) : result (list Value) :=
  for_range 0 i
    (λ j b, x ← vget b (2 * j)%nat;
            y ← vget b (2 * j + 1)%nat;
            vset b j (x + y)) b.

Definition pairwise_mean (f : list Value) : result Value :=
  let N := length f in
  let b := replicate N (0 : Value) in
  b ← pairwise_copy f b;
  i ← pairwise_start N;
  '(_, b) ← while_halving (Datatypes.S i) i pairwise_fold b;
  b0 ← vget b 0;
  Ok (b0 / Value_of_nat N).

(** Line 165: [maxorder = min(static_cast<size>(maxorder)+1, N)-1;] *)
Definition clamp_maxorder (maxorder N : Z) : Z :=
  wrap (Z.min (wrap (maxorder + 1)) N - 1).

(** The variables of the recursion and what has been written to the
    params, sigma2e and gain sinks so far. *)
Record burg_state : Type := BurgState {
  s_f : list Value;
  s_b : list Value;
  s_Dk : Value;
  s_sigma2e : Value;
  s_Ak : list Value;
  s_gain : Value;
  s_autocor : list Value;
  s_params_out : list Value;
  s_sigma2e_out : list Value;
  s_gain_out : list Value
}.

(** Lines 193-194. *)
Definition burg_mu (kp1 : nat) (st : burg_state) : result Value :=
  fr ← vfrom (s_f st) kp1;
  ip ← inner_product fr (s_b st) 0;
  Ok (2 / s_Dk st * ip).

(** Lines 196-202. *)
Definition burg_sweep (mu : Value) (kp1 : nat) (Ak : list Value)
    : result (list Value) :=
  for_range 0 (Datatypes.S (kp1 / 2))
    (λ n Ak, an ← vget Ak n;
             am ← vget Ak (kp1 - n)%nat;
             let t1 := an - mu * am in
             let t2 := am - mu * an in
             Ak ← vset Ak n t1;
             vset Ak (kp1 - n)%nat t2) Ak.

(** Lines 224-230.  A run that reaches the loop has [kp1 <= maxorder < N]
    ([clamp_maxorder_bounds] and [burg_method_wrapped] below), so [N - kp1]
    and [N - kp1 - 1] do not wrap. *)
Definition burg_residuals (mu : Value) (N kp1 : nat) (f b : list Value)
    : result (list Value * list Value) :=
  for_range 0 (N - kp1)%nat
    (λ n '(f, b), fn ← vget f (n + kp1)%nat;
                  bn ← vget b n;
                  let t1 := fn - mu * bn in
                  let t2 := bn - mu * fn in
                  f ← vset f (n + kp1)%nat t1;
                  b ← vset b n t2;
                  Ok (f, b)) (f, b).

(** Lines 212-219: the parameters, [sigma2e] and [gain] of the current
    model go to the sinks. *)
Definition burg_emit (maxorder : nat) (hierarchy : bool) (kp1 : nat)
    (st : burg_state) : result burg_state :=
  if hierarchy || (kp1 =? maxorder)%nat then
    block ← vrange (s_Ak st) 1 (kp1 + 1);
    Ok (BurgState (s_f st) (s_b st) (s_Dk st) (s_sigma2e st) (s_Ak st)
          (s_gain st) (s_autocor st)
          (s_params_out st ++ block)
          (s_sigma2e_out st ++ [s_sigma2e st])
          (s_gain_out st ++ [s_gain st]))
  else Ok st.

(** Lines 221-232: [f], [b] and [Dk] for the next pass, if one remains. *)
Definition burg_update (mu : Value) (N maxorder kp1 : nat)
    (st : burg_state) : result burg_state :=
  if (kp1 <? maxorder)%nat then
    '(f, b) ← burg_residuals mu N kp1 (s_f st) (s_b st);
    fk ← vget f kp1;
    bl ← vget b (N - kp1 - 1)%nat;
    let Dk := (1 - mu * mu) * s_Dk st - fk * fk - bl * bl in
    Ok (BurgState f b Dk (s_sigma2e st) (s_Ak st) (s_gain st) (s_autocor st)
          (s_params_out st) (s_sigma2e_out st) (s_gain_out st))
  else Ok st.

(** Lines 190-232: one pass of the loop body with the loop counter [kp1]. *)
Definition burg_iteration (N maxorder : nat) (hierarchy : bool)
    (kp1 : nat) (st : burg_state) : result burg_state :=
  mu ← burg_mu kp1 st;
  let sigma2e := s_sigma2e st * (1 - mu * mu) in
  Ak ← burg_sweep mu kp1 (s_Ak st);
  akp1 ← vget Ak kp1;
  let gain := s_gain st * (1 / (1 - akp1 * akp1)) in
  ak1 ← vfrom Ak 1;
  ac ← inner_product (rev (s_autocor st)) ak1 akp1;
  let autocor := s_autocor st ++ [- ac] in
  let st := BurgState (s_f st) (s_b st) (s_Dk st) sigma2e Ak gain autocor
              (s_params_out st) (s_sigma2e_out st) (s_gain_out st) in
  st ← burg_emit maxorder hierarchy kp1 st;
  burg_update mu N maxorder kp1 st.

(** Lines 170-185: the state on entry to the loop. *)
Definition burg_init (f : list Value) (mean : Value) (maxorder : Z)
    (subtract_mean : bool) : result burg_state :=
  let N := length f in
  let f := if subtract_mean then (λ x, x - mean) <$> f else f in
  sigma2e ← inner_product f f 0;
  f0 ← vget f 0;
  fl ← vget f (N - 1)%nat;
  let Dk := - f0 * f0 - fl * fl + 2 * sigma2e in
  let sigma2e := sigma2e / Value_of_nat N in
  let b := f in
  let Ak := replicate (Z.to_nat (wrap (maxorder + 1))) (0 : Value) in
  Ak ← vset Ak 0 1;
  Ok (BurgState f b Dk sigma2e Ak 1 [] [] [] []).

(** What a call leaves behind: the value returned, the in/out parameters
    [mean] and [maxorder], and the four output sequences. *)
Record burg_output : Type := BurgOutput {
  o_return : Z;
  o_mean : Value;
  o_maxorder : Z;
  o_params : list Value;
  o_sigma2e : list Value;
  o_gain : list Value;
  o_autocor : list Value
}.

Definition burg_method (data : list Value) (maxorder : Z)
    (subtract_mean hierarchy : bool) : result burg_output :=
  let f := data in
  let N := length f in
  mean ← pairwise_mean f;
  let maxorder := clamp_maxorder maxorder (Z.of_nat N) in
  if (maxorder =? 0)%Z then
    Ok (BurgOutput (Z.of_nat N) mean maxorder [] [] [] [])
  else
    st ← burg_init f mean maxorder subtract_mean;
    st ← for_range 1 (Z.to_nat maxorder)
           (burg_iteration N (Z.to_nat maxorder) hierarchy) st;
    Ok (BurgOutput (Z.of_nat N) mean maxorder
          (s_params_out st) (s_sigma2e_out st) (s_gain_out st)
          (s_autocor st)).

(** The state on entry to the pass with loop counter [kp1] of the same
    call: the recursion stopped before that pass. *)
Definition burg_entry (data : list Value) (maxorder : Z)
    (subtract_mean hierarchy : bool) (kp1 : nat) : result burg_state :=
  let f := data in
  let N := length f in
  mean ← pairwise_mean f;
  let maxorder := clamp_maxorder maxorder (Z.of_nat N) in
  st ← burg_init f mean maxorder subtract_mean;
  for_range 1 (kp1 - 1)
    (burg_iteration N (Z.to_nat maxorder) hierarchy) st.

(** ** zohar_linear_solve *)

(** The working vectors of the recursion and the position of [d_first]. *)
Record zohar_state : Type := ZoharState {
  z_s : list Value;
  z_ehat : list Value;
  z_g : list Value;
  z_lambda : Value;
  z_d : nat
}.

(** Lines 360-365. [next_ehat] is cleared on entry to every pass of the
    outer loop, so it is local to the pass. *)
Definition zohar_inner (theta_by_lambda eta_by_lambda gamma_by_lambda : Value)
    (ehat : list Value) (i : nat) (s next_ehat g : list Value)
    : result (list Value * list Value * list Value) :=
  for_range 0 i
    (λ j '(s, next_ehat, g),
       sj ← vget s j;
       ej ← vget ehat j;
       s ← vset s j (sj + theta_by_lambda * ej);
       gj ← vget g j;
       let next_ehat := next_ehat ++ [ej + eta_by_lambda * gj] in
       g ← vset g j (gj + gamma_by_lambda * ej);
       Ok (s, next_ehat, g)) (s, next_ehat, g).

(** Lines 323-371: one pass of the loop for [i] in [1, n). *)
Definition zohar_iteration (a r d : list Value) (i : nat) (st : zohar_state)
    : result zohar_state :=
  rhat ← vrange r 0 i;
  let rhat := rev rhat in
  let d_first := Datatypes.S (z_d st) in
  di ← vget d d_first;
  neg_theta ← inner_product (z_s st) rhat (- di);
  ai ← vget a i;
  neg_eta ← inner_product (z_ehat st) a ai;
  ri ← vget r i;
  neg_gamma ← inner_product (z_g st) rhat ri;
  let theta_by_lambda := - neg_theta / z_lambda st in
  let eta_by_lambda := - neg_eta / z_lambda st in
  let gamma_by_lambda := - neg_gamma / z_lambda st in
  '(s, next_ehat, g) ←
     zohar_inner theta_by_lambda eta_by_lambda gamma_by_lambda
       (z_ehat st) i (z_s st) [eta_by_lambda] (z_g st);
  let s := s ++ [theta_by_lambda] in
  let g := g ++ [gamma_by_lambda] in
  let ehat := next_ehat in
  let lambda := z_lambda st - neg_eta * neg_gamma / z_lambda st in
  Ok (ZoharState s ehat g lambda d_first).

(** Lines 376-395: the last pass. *)
Definition zohar_last (r d : list Value) (n : nat) (st : zohar_state)
    : result (list Value) :=
  rhat ← vrange r 0 n;
  let rhat := rev rhat in
  dn ← vget d (Datatypes.S (z_d st));
  neg_theta ← inner_product (z_s st) rhat (- dn);
  let theta_by_lambda := - neg_theta / z_lambda st in
  s ← for_range 0 n
         (λ j s, sj ← vget s j;
                 ej ← vget (z_ehat st) j;
                 vset s j (sj + theta_by_lambda * ej)) (z_s st);
  Ok (s ++ [theta_by_lambda]).

(** The five-argument form: [a] is the range [[a_first, a_last)], [r] and
    [d] what can be read from [r_first] and [d_first]; the result is what
    is written through [s_first]. *)
Definition zohar_linear_solve (a r d : list Value) : result (list Value) :=
  let dist := Z.of_nat (length a) in
  if (dist <? 1)%Z then Stop InvalidArgument else
  let n := Z.to_nat dist in
  d0 ← vget d 0;
  a0 ← vget a 0;
  r0 ← vget r 0;
  let st := ZoharState [d0] [- a0] [- r0] (1 - a0 * r0) 0 in
  st ← for_range 1 (n - 1) (zohar_iteration a r d) st;
  zohar_last r d n st.

(** The four-argument form writes the solution over [d]; the result is
    the buffer of [d] on return. *)
Definition zohar_linear_solve_inplace (a r d : list Value)
    : result (list Value) :=
  s ← zohar_linear_solve a r d;
  Ok (s ++ drop (length s) d).

(** The three-argument, symmetric form. *)
Definition zohar_linear_solve_symmetric (a d : list Value)
    : result (list Value) :=
  zohar_linear_solve_inplace a a d.

(** ** Empirical variances *)

(** The integer arguments have the type [std::size_t], the default of
    [Integer1] and [Integer2] in the library's adapters. *)

Inductive mean_handling : Type := mean_subtracted | mean_retained.

Definition empirical_variance_zero (m : mean_handling) (N : Z)
    : result Value :=
  match m with
  | mean_subtracted =>
      _ ← assert (1 <=? N)%Z;
      let den := Value_of_Z N in
      Ok (1 / den)
  | mean_retained => Ok 0
  end.

Inductive estimation_method : Type :=
| YuleWalker (m : mean_handling)
| Burg (m : mean_handling)
| LSFB (m : mean_handling)
| LSF (m : mean_handling).

Definition MeanHandling (e : estimation_method) : mean_handling :=
  match e with YuleWalker m | Burg m | LSFB m | LSF m => m end.

(** Line 544: [Result num = N - i, den = N*(N + 2);] *)
Definition YuleWalker_num (N i : Z) : Value := Value_of_Z (wrap (N - i)).
Definition YuleWalker_den (N : Z) : Value :=
  Value_of_Z (wrap (N * wrap (N + 2))).
(** Line 570: [Result den = N + 1 - i;] *)
Definition Burg_den (N i : Z) : Value := Value_of_Z (wrap (wrap (N + 1) - i)).
(** Line 597: [Result den = N + Result(3)/2 - Result(3)/2 * i;] *)
Definition LSFB_den (N i : Z) : Value :=
  Value_of_Z N + Value_of_Z 3 / 2 - Value_of_Z 3 / 2 * Value_of_Z i.
(** Line 624: [Result den = N + 2 - 2*i;] *)
Definition LSF_den (N i : Z) : Value :=
  Value_of_Z (wrap (wrap (N + 2) - wrap (2 * i))).

Definition empirical_variance (e : estimation_method) (N i : Z)
    : result Value :=
  _ ← assert (1 <=? N)%Z;
  _ ← assert (0 <=? i)%Z;
  _ ← assert (i <=? N)%Z;
  if (i =? 0)%Z then empirical_variance_zero (MeanHandling e) N
  else
    match e with
    | YuleWalker _ => Ok (YuleWalker_num N i / YuleWalker_den N)
    | Burg _ => Ok (1 / Burg_den N i)
    | LSFB _ => Ok (1 / LSFB_den N i)
    | LSF _ => Ok (1 / LSF_den N i)
    end.

(** [empirical_variance_function::operator()]. *)
Definition empirical_variance_function (e : estimation_method) (N i : Z)
    : result Value :=
  empirical_variance e N i.

(** [empirical_variance_generator]: the members [N] and [i]. *)
Record empirical_variance_generator : Type := Generator {
  gen_N : Z;
  gen_i : Z
}.

Definition generator_new (N : Z) : empirical_variance_generator :=
  Generator N 0.

(** [operator()]: the value for the current order, and the generator with
    [i] incremented. *)
Definition generator_call (e : estimation_method)
    (g : empirical_variance_generator)
    : result (Value * empirical_variance_generator) :=
  v ← empirical_variance e (gen_N g) (gen_i g);
  Ok (v, Generator (gen_N g) (wrap (gen_i g + 1))).

(** A data member: its value, or indeterminate when no initialiser has
    given it one. *)
Inductive member (A : Type) : Type :=
| Holds (a : A)
| Indeterminate.
Arguments Holds {A} a.
Arguments Indeterminate {A}.

Definition read {A : Type} (m : member A) : result A :=
  match m with
  | Holds a => Ok a
  | Indeterminate => Stop IndeterminateRead
  end.

(** [empirical_variance_iterator]: the members [N] and [i]. *)
Record empirical_variance_iterator : Type := Iterator {
  it_N : Z;
  it_i : member Z
}.

(** Line 695: [empirical_variance_iterator(Integer1 N, Integer2) : N(N), i(i) {}].
    The second parameter has no name; the initialiser [i(i)] names the
    member itself, which is left without a value. *)
Definition iterator_private (N : Z) (_ : Z) : empirical_variance_iterator :=
  Iterator N Indeterminate.

(** Line 708: the past-end iterator. *)
Definition iterator_end : empirical_variance_iterator := Iterator 0 (Holds 1%Z).

(** Line 711. *)
Definition iterator_begin (N : Z) : result empirical_variance_iterator :=
  _ ← assert (1 <=? N)%Z;
  Ok (Iterator N (Holds 0%Z)).

(** Line 714: [operator++()]. *)
Definition iterator_preincrement (it : empirical_variance_iterator)
    : result empirical_variance_iterator :=
  _ ← assert (1 <=? it_N it)%Z;
  i ← read (it_i it);
  Ok (Iterator (it_N it) (Holds (wrap (i + 1)))).

(** Line 717: [operator++(int)]: the iterator returned and the iterator
    itself afterwards. *)
Definition iterator_postincrement (it : empirical_variance_iterator)
    : result (empirical_variance_iterator * empirical_variance_iterator) :=
  _ ← assert (1 <=? it_N it)%Z;
  i ← read (it_i it);
  Ok (iterator_private (it_N it) i,
      Iterator (it_N it) (Holds (wrap (i + 1)))).

(** Line 720: [operator==]. *)
Definition iterator_eq (this other : empirical_variance_iterator)
    : result bool :=
  if (it_N this =? 0)%Z then
    i ← read (it_i other);
    Ok (i =? wrap (it_N other + 1))%Z
  else if (it_N other =? 0)%Z then
    i ← read (it_i this);
    Ok (i =? wrap (it_N this + 1))%Z
  else
    i ← read (it_i this);
    j ← read (it_i other);
    Ok ((it_N this =? it_N other)%Z && (i =? j)%Z).

(** Line 731: [operator!=]. *)
Definition iterator_ne (this other : empirical_variance_iterator)
    : result bool :=
  eq ← iterator_eq this other;
  Ok (negb eq).

(** Line 734: [operator*]. *)
Definition iterator_deref (e : estimation_method)
    (it : empirical_variance_iterator) : result Value :=
  i ← read (it_i it);
  _ ← assert (i <=? it_N it)%Z;
  empirical_variance e (it_N it) i.

(** [while (first != last) out.push_back( *first++ );] *)
Fixpoint traverse_postincrement (e : estimation_method) (fuel : nat)
    (first last : empirical_variance_iterator) (out : list Value)
    : result (list Value) :=
  match fuel with
  | O => Stop FuelExhausted
  | Datatypes.S fuel' =>
      go ← iterator_ne first last;
      if go : bool then
        '(copy, first) ← iterator_postincrement first;
        v ← iterator_deref e copy;
        traverse_postincrement e fuel' first last (out ++ [v])
      else Ok out
  end.

(** [for (; first != last; ++first) out.push_back( *first );] *)
Fixpoint traverse_preincrement (e : estimation_method) (fuel : nat)
    (first last : empirical_variance_iterator) (out : list Value)
    : result (list Value) :=
  match fuel with
  | O => Stop FuelExhausted
  | Datatypes.S fuel' =>
      go ← iterator_ne first last;
      if go : bool then
        v ← iterator_deref e first;
        first ← iterator_preincrement first;
        traverse_preincrement e fuel' first last (out ++ [v])
      else Ok out
  end.

(** * Definitions for the statements *)

(** ** Sums, sums of squares and products *)

Definition sum (l : list Value) : Value := foldr Qcplus 0 l.
Definition sumsq (l : list Value) : Value := sum ((λ x, x * x) <$> l).
Definition dot (u v : list Value) : Value := sum (zip_with Qcmult u v).

(** ** The recursion of burg_method *)

(** The variables of the recursion, the model among them, and the sinks. *)
Definition burg_core (st : burg_state) :=
  (s_f st, s_b st, s_Dk st, s_sigma2e st, s_Ak st, s_gain st, s_autocor st).
Definition burg_model (st : burg_state) :=
  (s_sigma2e st, s_Ak st, s_gain st, s_autocor st).
Definition burg_sinks (st : burg_state) :=
  (s_params_out st, s_sigma2e_out st, s_gain_out st).

(** The lengths of the vectors on entry to the pass [kp1]. *)
Definition burg_shape (N p kp1 : nat) (st : burg_state) : Prop :=
  length (s_f st) = N ∧ length (s_b st) = N
  ∧ length (s_Ak st) = Datatypes.S p
  ∧ length (s_autocor st) = (kp1 - 1)%nat.

(** [Dk] is the sum of the squares of the residuals that enter [mu]. *)
Definition burg_Dk_inv (N kp1 : nat) (st : burg_state) : Prop :=
  s_Dk st
  = sumsq (drop kp1 (s_f st)) + sumsq (take (N - kp1) (s_b st)).

(** What a pass writes to the sinks. *)
Definition burg_emits (p : nat) (hierarchy : bool) (kp1 : nat)
    (st st' : burg_state) : Prop :=
  if hierarchy || (kp1 =? p)%nat then
    ∃ block, vrange (s_Ak st') 1 (kp1 + 1) = Ok block
      ∧ length block = kp1
      ∧ s_params_out st' = s_params_out st ++ block
      ∧ s_sigma2e_out st' = s_sigma2e_out st ++ [s_sigma2e st']
      ∧ s_gain_out st' = s_gain_out st ++ [s_gain st']
  else burg_sinks st' = burg_sinks st.

(** What holds of the [sigma2e] written so far by the passes [body] from
    the state [st0]: none is negative, and each is the one before it
    times [1 - mu * mu], which makes it at most the one before it. *)
Definition sigma2e_chain (body : nat → burg_state → result burg_state)
    (st0 : burg_state) (out : list Value) : Prop :=
  Forall (λ x, 0 ≤ x) out
  ∧ ∀ j x y, out !! j = Some x → out !! Datatypes.S j = Some y →
      y ≤ x ∧ ∃ st mu, for_range 1 (Datatypes.S j) body st0 = Ok st
                       ∧ burg_mu (Datatypes.S (Datatypes.S j)) st = Ok mu
                       ∧ y = x * (1 - mu * mu).

(** The blocks AR(1), ..., AR(k): the block of the order [j + 1] has
    [j + 1] entries. *)
Definition burg_blocks (k : nat) (blocks : list (list Value)) : Prop :=
  length blocks = k
  ∧ ∀ j blk, blocks !! j = Some blk → length blk = Datatypes.S j.

(** [Ak] has one entry per order up to the maximum; the entries above the
    current order are zero and are not read.  Two calls that differ in the
    maximum order agree up to these entries. *)
Definition burg_pad (zs : list Value) (sq sp : burg_state) : Prop :=
  s_f sq = s_f sp ∧ s_b sq = s_b sp ∧ s_Dk sq = s_Dk sp
  ∧ s_sigma2e sq = s_sigma2e sp ∧ s_gain sq = s_gain sp
  ∧ s_autocor sq = s_autocor sp
  ∧ s_Ak sp = s_Ak sq ++ zs.

(** What a call returns from the state its recursion ends in. *)
Definition burg_result (N : nat) (mean : Value) (maxorder : nat)
    (st : burg_state) : burg_output :=
  BurgOutput (Z.of_nat N) mean (Z.of_nat maxorder)
    (s_params_out st) (s_sigma2e_out st) (s_gain_out st) (s_autocor st).

(** The call that fits the single model of order [q], from the state
    [init q] on entry to its loop. *)
Definition burg_single (N : nat) (mean : Value) (init : nat → burg_state)
    (q : nat) : result burg_output :=
  st ← for_range 1 q (burg_iteration N q false) (init q);
  Ok (burg_result N mean q st).

(** The state on entry to the loop of the call for the order [q]. *)
Definition burg_init_state (data : list Value) (mean : Value) (sm : bool)
    (q : nat) : burg_state :=
  match burg_init data mean (Z.of_nat q) sm with
  | Ok st => st
  | Stop _ => BurgState [] [] 0 0 [] 0 [] [] [] []
  end.

(** ** Explicit errors *)

(** The run does not end in the exception of line 304. *)
Definition no_throw {A : Type} (r : result A) : Prop :=
  r ≠ Stop InvalidArgument.

(** ** The table of the empirical variances *)

(** Section 4.4 of the specification, in exact arithmetic on [N] and [i]. *)
Definition empirical_variance_table (e : estimation_method) (N i : Z)
    : Value :=
  let n := Value_of_Z N in
  let k := Value_of_Z i in
  if (i =? 0)%Z then
    match MeanHandling e with
    | mean_subtracted => 1 / n
    | mean_retained => 0
    end
  else
    match e with
    | YuleWalker _ => (n - k) / (n * (n + 2))
    | Burg _ => 1 / (n + 1 - k)
    | LSFB _ => 1 / (n + Value_of_Z 3 / 2 - Value_of_Z 3 * k / 2)
    | LSF _ => 1 / (n + 2 - 2 * k)
    end.

(** Where no integer expression of the method leaves the range of
    [std::size_t]. *)
Definition empirical_variance_exact (e : estimation_method) (N i : Z)
    : Prop :=
  match e with
  | YuleWalker _ => (N * (N + 2) < size_modulus)%Z
  | Burg _ => (N < size_modulus)%Z
  | LSFB _ => True
  | LSF _ => (N < size_modulus)%Z ∧ (2 * i ≤ N + 2)%Z
  end.

(** ** Concrete inputs *)

(** A sequence of integers as a sequence of [Value]. *)
Definition Vz (z : Z) : Value := Value_of_Z z.

#[global] Instance stop_eq_dec : EqDecision stop.
Proof. solve_decision. Defined.
#[global] Instance result_eq_dec {A} `{EqDecision A} : EqDecision (result A).
Proof. solve_decision. Defined.
#[global] Instance burg_output_eq_dec : EqDecision burg_output.
Proof. solve_decision. Defined.

(** * Properties *)

(** * Reasoning about outcomes, vectors and loops *)

Section Outcomes.
Context {A B : Type}.

Lemma bind_Ok (m : result A) (k : A → result B) (b : B) :
  m ≫= k = Ok b ↔ ∃ a, m = Ok a ∧ k a = Ok b.
Proof.
  destruct m as [a|s]; simpl; split.
  - eauto.
  - by intros (? & [= ->] & ?).
  - done.
  - by intros (? & ? & ?).
Qed.

Lemma bind_Ok_l (a : A) (k : A → result B) : Ok a ≫= k = k a.
Proof. done. Qed.

Lemma bind_Stop_l (e : stop) (k : A → result B) : Stop e ≫= k = Stop e.
Proof. done. Qed.

Lemma bind_Stop (m : result A) (k : A → result B) (s : stop) :
  m ≫= k = Stop s ↔ m = Stop s ∨ ∃ a, m = Ok a ∧ k a = Stop s.
Proof.
  destruct m as [a|s']; simpl; split.
  - right. eauto.
  - by intros [?|(? & [= ->] & ?)].
  - intros [= ->]. by left.
  - by intros [[= ->]|(? & ? & ?)].
Qed.
End Outcomes.

(** Run the computation past the calls whose outcome is known. *)
Ltac run := repeat (rewrite ?bind_Ok_l, ?bind_Stop_l; cbv beta iota).

Section VectorFacts.
Context {A : Type}.
Implicit Types (v : list A) (i : nat) (x : A).

Lemma vget_Ok v i x : vget v i = Ok x ↔ v !! i = Some x.
Proof. unfold vget. destruct (v !! i); split; congruence. Qed.

Lemma vget_lookup v i x : v !! i = Some x → vget v i = Ok x.
Proof. apply vget_Ok. Qed.

Lemma vget_lt v i : (i < length v)%nat → ∃ x, v !! i = Some x ∧ vget v i = Ok x.
Proof.
  intros Hi. destruct (lookup_lt_is_Some_2 v i Hi) as [x Hx].
  exists x. split; [done|by apply vget_Ok].
Qed.

Lemma vset_lt v i x : (i < length v)%nat → vset v i x = Ok (<[i:=x]> v).
Proof. intros Hi. unfold vset. by rewrite decide_True. Qed.

Lemma vset_Ok v i x v' :
  vset v i x = Ok v' ↔ (i < length v)%nat ∧ v' = <[i:=x]> v.
Proof.
  unfold vset. case_decide; split; try done.
  - by intros [= <-].
  - by intros [_ ->].
  - by intros [].
Qed.

Lemma vfrom_le v lo : (lo ≤ length v)%nat → vfrom v lo = Ok (drop lo v).
Proof. intros Hi. unfold vfrom. by rewrite decide_True. Qed.

Lemma vrange_le v lo hi :
  (lo ≤ hi)%nat → (hi ≤ length v)%nat →
  vrange v lo hi = Ok (take (hi - lo) (drop lo v)).
Proof. intros H1 H2. unfold vrange. by rewrite decide_True. Qed.
End VectorFacts.

Section ForRange.
Context {S : Type}.
Implicit Types (body : nat → S → result S) (s : S).

(** The last pass of a loop, split off. *)
Lemma for_range_snoc lo count body s :
  for_range lo (Datatypes.S count) body s
  = for_range lo count body s ≫= body (lo + count)%nat.
Proof.
  revert lo s. induction count as [|c IH]; intros lo s.
  - simpl. rewrite Nat.add_0_r. by destruct (body lo s).
  - specialize (IH (Datatypes.S lo)). simpl in *.
    destruct (body lo s) as [s'|e]; simpl; [|done].
    rewrite Nat.add_succ_r. apply IH.
Qed.

(** A loop whose passes keep an invariant runs to its end and
    establishes the invariant there. *)
Lemma for_range_inv (P : nat → S → Prop) lo count body s :
  P lo s →
  (∀ i s, (lo ≤ i < lo + count)%nat → P i s →
          ∃ s', body i s = Ok s' ∧ P (Datatypes.S i) s') →
  ∃ s', for_range lo count body s = Ok s' ∧ P (lo + count)%nat s'.
Proof.
  revert lo s. induction count as [|c IH]; intros lo s H0 Hstep.
  - exists s. by rewrite Nat.add_0_r.
  - destruct (Hstep lo s) as (s1 & Hb & H1); [lia|done|].
    destruct (IH (Datatypes.S lo) s1) as (s2 & Hf & H2); [done| |].
    { intros i s' Hi. apply Hstep. lia. }
    exists s2. cbn [for_range]. rewrite Hb. run.
    by replace (lo + Datatypes.S c)%nat with (Datatypes.S lo + c)%nat by lia.
Qed.

Lemma for_range_ext lo count body1 body2 s :
  (∀ i s, (lo ≤ i < lo + count)%nat → body1 i s = body2 i s) →
  for_range lo count body1 s = for_range lo count body2 s.
Proof.
  revert lo s. induction count as [|c IH]; intros lo s Hext; [done|].
  simpl. rewrite Hext by lia. destruct (body2 lo s); simpl; [|done].
  apply IH. intros i s' Hi. apply Hext. lia.
Qed.
End ForRange.

(** * Sums *)


Lemma sum_app l1 l2 : sum (l1 ++ l2) = sum l1 + sum l2.
Proof.
  induction l1 as [|x l1 IH]; simpl; [ring|].
  unfold sum in *. simpl. rewrite IH. ring.
Qed.

Lemma sum_insert l i x y :
  l !! i = Some x → sum (<[i:=y]> l) = sum l - x + y.
Proof.
  revert i. induction l as [|z l IH]; intros [|i] H; simplify_eq/=.
  - unfold sum. simpl. ring.
  - unfold sum in *. simpl. rewrite (IH i H). ring.
Qed.

Lemma sum_zero l : Forall (λ x, x = 0) l → sum l = 0.
Proof.
  induction 1 as [|x l -> _ IH]; [done|].
  unfold sum in *. simpl. rewrite IH. ring.
Qed.

Lemma sum_take_S l i x :
  l !! i = Some x → sum (take (Datatypes.S i) l) = sum (take i l) + x.
Proof.
  intros H. rewrite (take_S_r _ _ _ H), sum_app. unfold sum. simpl. ring.
Qed.

Lemma sum_take_zero_beyond l n :
  (∀ j x, (n ≤ j)%nat → l !! j = Some x → x = 0) → sum (take n l) = sum l.
Proof.
  intros H. rewrite <- (take_drop n l) at 2. rewrite sum_app.
  rewrite (sum_zero (drop n l)); [ring|].
  apply Forall_lookup. intros j x Hj. rewrite lookup_drop in Hj.
  apply (H (n + j)%nat); [lia|done].
Qed.

(** * The mean (lines 145-162) *)

Lemma pairwise_copy_spec (f : list Value) :
  ∃ b, pairwise_copy f (replicate (length f) 0) = Ok b
       ∧ length b = length f
       ∧ sum b = sum f
       ∧ ∀ j x, ((length f + 1) / 2 ≤ j)%nat → b !! j = Some x → x = 0.
Proof.
  unfold pairwise_copy.
  destruct (for_range_inv
    (λ i b, length b = length f ∧ sum b = sum (take i f)
            ∧ ∀ j x, ((i + 1) / 2 ≤ j)%nat → b !! j = Some x → x = 0)
    0 (length f)
    (λ i b, fi ← vget f i; bi ← vget b (i / 2)%nat;
            vset b (i / 2)%nat (bi + fi))
    (replicate (length f) 0)) as (b & Hb & Hlen & Hsum & Hz).
  - split; [by rewrite length_replicate|]. split.
    { apply sum_zero, Forall_replicate. done. }
    intros j x _ Hj. by apply lookup_replicate in Hj as [-> _].
  - intros i b Hi (Hlen & Hsum & Hz).
    destruct (vget_lt f i) as (fi & Hfi & ->); [lia|]. run.
    destruct (vget_lt b (i / 2)) as (bi & Hbi & ->).
    { rewrite Hlen. pose proof (Nat.Div0.div_le_upper_bound i 2 i). lia. }
    run. rewrite vset_lt by (by apply lookup_lt_Some in Hbi).
    eexists. split; [done|]. split; [by rewrite length_insert|]. split.
    + rewrite (sum_insert _ _ _ _ Hbi), (sum_take_S _ _ _ Hfi), Hsum. ring.
    + intros j x Hj Hx. rewrite list_lookup_insert_ne in Hx.
      * apply (Hz j); [|done]. 
        assert ((i + 1) / 2 ≤ (Datatypes.S i + 1) / 2)%nat; [|lia].
        apply Nat.Div0.div_le_mono. lia.
      * replace (Datatypes.S i + 1)%nat with (i + 1 * 2)%nat in Hj by lia.
        rewrite Nat.div_add in Hj by lia. lia.
  - exists b. simpl in *. rewrite firstn_all in Hsum. done.
Qed.

(** [pairwise_start] finds the largest power of two that is at most [N]. *)
Lemma pairwise_start_loop fuel t i :
  (1 ≤ t)%nat → (t ≤ fuel)%nat →
  ∃ m, while_halving fuel t (λ _ i, Ok (i * 2)%nat) i
       = Ok (0%nat, (i * 2 ^ m)%nat)
       ∧ (2 ^ m ≤ t < 2 ^ Datatypes.S m)%nat.
Proof.
  revert t i. induction fuel as [|fuel IH]; intros t i Ht Hfuel; [lia|].
  cbn [while_halving]. cbv zeta.
  destruct (Nat.eqb_spec (t / 2) 0) as [Hz|Hnz].
  - exists 0%nat. rewrite Hz, Nat.pow_0_r, Nat.mul_1_r. split; [done|].
    change (2 ^ 1)%nat with 2%nat. 
    pose proof (Nat.div_mod_eq t 2). pose proof (Nat.mod_upper_bound t 2). lia.
  - run. 
    pose proof (Nat.div_mod_eq t 2). pose proof (Nat.mod_upper_bound t 2).
    destruct (IH (t / 2)%nat (i * 2)%nat) as (m & -> & Hm); [lia|lia|].
    exists (Datatypes.S m). split.
    + f_equal. f_equal. rewrite Nat.pow_succ_r'. lia.
    + rewrite !Nat.pow_succ_r' in *. lia.
Qed.

Lemma pairwise_start_spec N :
  (1 ≤ N)%nat →
  ∃ m, pairwise_start N = Ok (2 ^ m)%nat ∧ (2 ^ m ≤ N < 2 ^ Datatypes.S m)%nat.
Proof.
  intros HN. unfold pairwise_start.
  destruct (Nat.eqb_spec N 0) as [|_]; [lia|].
  destruct (pairwise_start_loop (Datatypes.S N) N 1) as (m & -> & Hm); [lia..|].
  exists m. run. by rewrite Nat.mul_1_l.
Qed.

(** One fold halves the prefix that carries the sum. *)
Lemma sum_take_halved (b c : list Value) i :
  (2 * i ≤ length b)%nat →
  (∀ j x y, (j < i)%nat → b !! (2 * j)%nat = Some x →
            b !! (2 * j + 1)%nat = Some y → c !! j = Some (x + y)) →
  sum (take i c) = sum (take (2 * i) b).
Proof.
  induction i as [|i IH]; intros Hlen Hc; [done|].
  destruct (lookup_lt_is_Some_2 b (2 * i)) as [x Hx]; [lia|].
  destruct (lookup_lt_is_Some_2 b (2 * i + 1)) as [y Hy]; [lia|].
  rewrite (sum_take_S c i (x + y)) by (apply Hc; [lia|done..]).
  replace (2 * Datatypes.S i)%nat with (Datatypes.S (2 * i + 1)) by lia.
  rewrite (sum_take_S b _ y Hy).
  replace (2 * i + 1)%nat with (Datatypes.S (2 * i)) by lia.
  rewrite (sum_take_S b _ x Hx).
  rewrite IH; [ring|lia|]. intros j ? ? ?. apply Hc. lia.
Qed.

Lemma pairwise_fold_spec i (b : list Value) :
  (2 * i ≤ length b)%nat →
  ∃ c, pairwise_fold i b = Ok c ∧ length c = length b
       ∧ sum (take i c) = sum (take (2 * i) b).
Proof.
  intros Hlen. unfold pairwise_fold.
  destruct (for_range_inv
    (λ m c, length c = length b
            ∧ (∀ j x y, (j < m)%nat → b !! (2 * j)%nat = Some x →
                 b !! (2 * j + 1)%nat = Some y → c !! j = Some (x + y))
            ∧ ∀ j, (m ≤ j)%nat → c !! j = b !! j)
    0 i
    (λ j b, x ← vget b (2 * j)%nat; y ← vget b (2 * j + 1)%nat;
            vset b j (x + y)) b) as (c & Hc & Hl & Hlow & _).
  - split; [done|]. split; [lia|done].
  - intros m c Hm (Hl & Hlow & Hhigh).
    destruct (vget_lt c (2 * m)) as (x & Hx & ->); [lia|]. run.
    destruct (vget_lt c (2 * m + 1)) as (y & Hy & ->); [lia|]. run.
    rewrite vset_lt by lia. eexists. split; [done|].
    split; [by rewrite length_insert|]. split.
    + intros j x' y' Hj Hx' Hy'. destruct (decide (j = m)) as [->|Hne].
      * rewrite list_lookup_insert_eq by lia.
        rewrite Hhigh in Hx, Hy by lia. congruence.
      * rewrite list_lookup_insert_ne by done. apply Hlow; [lia|done..].
    + intros j Hj. rewrite list_lookup_insert_ne by lia. apply Hhigh. lia.
  - exists c. split; [done|]. split; [done|].
    apply sum_take_halved; [done|]. intros j x y Hj. by apply Hlow.
Qed.

Lemma pairwise_fold_loop m fuel (b : list Value) :
  (m < fuel)%nat → (2 ^ m ≤ length b)%nat →
  ∃ c, while_halving fuel (2 ^ m) pairwise_fold b = Ok (0%nat, c)
       ∧ c !! 0%nat = Some (sum (take (2 ^ m) b)).
Proof.
  revert fuel b. induction m as [|m IH]; intros fuel b Hfuel Hlen.
  - destruct fuel as [|fuel]; [lia|]. exists b. split; [done|].
    destruct b as [|x b]; simpl in *; [lia|]. f_equal. unfold sum. simpl. ring.
  - destruct fuel as [|fuel]; [lia|]. cbn [while_halving]. cbv zeta.
    rewrite Nat.pow_succ_r' in *.
    replace (2 * 2 ^ m / 2)%nat with (2 ^ m)%nat
      by (rewrite Nat.mul_comm, Nat.div_mul; lia).
    pose proof (Nat.pow_nonzero 2 m).
    destruct (Nat.eqb_spec (2 ^ m) 0) as [|_]; [lia|].
    destruct (pairwise_fold_spec (2 ^ m) b) as (c & -> & Hl & Hs); [lia|]. run.
    destruct (IH fuel c) as (c' & -> & Hc'); [lia|lia|].
    exists c'. split; [done|]. by rewrite Hc', Hs.
Qed.

Lemma pairwise_mean_spec (f : list Value) :
  f ≠ [] → pairwise_mean f = Ok (sum f / Value_of_nat (length f)).
Proof.
  intros Hne. assert (1 ≤ length f)%nat as HN by (destruct f; simpl; [done|lia]).
  unfold pairwise_mean. cbv zeta.
  destruct (pairwise_copy_spec f) as (b & -> & Hl & Hs & Hz). run.
  destruct (pairwise_start_spec _ HN) as (m & -> & Hm). run.
  destruct (pairwise_fold_loop m (Datatypes.S (2 ^ m)) b) as (c & -> & Hc).
  { pose proof (Nat.pow_gt_lin_r 2 m). lia. }
  { lia. }
  run. rewrite (vget_lookup _ _ _ Hc). run. do 2 f_equal.
  rewrite <- Hs. apply sum_take_zero_beyond. intros j x Hj. apply Hz.
  rewrite Nat.pow_succ_r' in Hm.
  assert ((length f + 1) / 2 ≤ 2 ^ m)%nat; [|lia].
  apply Nat.Div0.div_le_upper_bound. lia.
Qed.

(** * Sums of squares and products *)


Lemma sum_cons x l : sum (x :: l) = x + sum l.
Proof. done. Qed.

Lemma sumsq_cons x l : sumsq (x :: l) = x * x + sumsq l.
Proof. done. Qed.

Lemma dot_cons x y u v : dot (x :: u) (y :: v) = x * y + dot u v.
Proof. done. Qed.

Lemma sumsq_app l1 l2 : sumsq (l1 ++ l2) = sumsq l1 + sumsq l2.
Proof. unfold sumsq. by rewrite fmap_app, sum_app. Qed.

Lemma Qc_square_nonneg (x : Value) : 0 ≤ x * x.
Proof.
  destruct (Qclt_le_dec x 0) as [Hneg|Hpos].
  - replace (x * x) with ((- x) * (- x)) by ring.
    assert (0 ≤ - x) as H.
    { apply Qclt_le_weak, Qcle_minus_iff in Hneg. by rewrite Qcplus_0_l in Hneg. }
    by apply Qcmult_nonneg_nonneg.
  - by apply Qcmult_nonneg_nonneg.
Qed.

Lemma sumsq_nonneg l : 0 ≤ sumsq l.
Proof.
  induction l as [|x l IH]; [done|]. rewrite sumsq_cons.
  apply Qcplus_nonneg_nonneg; [apply Qc_square_nonneg|done].
Qed.

Lemma inner_product_spec (r1 r2 : list Value) init :
  (length r1 ≤ length r2)%nat →
  inner_product r1 r2 init = Ok (init + dot r1 r2).
Proof.
  revert r2 init. induction r1 as [|x r1 IH]; intros [|y r2] init Hlen;
    simpl in *; try lia.
  - f_equal. unfold dot, sum. simpl. ring.
  - f_equal. unfold dot, sum. simpl. ring.
  - rewrite IH by lia. f_equal. rewrite dot_cons. ring.
Qed.

Lemma dot_self l : dot l l = sumsq l.
Proof. induction l as [|x l IH]; [done|]. by rewrite dot_cons, sumsq_cons, IH. Qed.

Lemma sumsq_minus u v :
  length u = length v →
  sumsq (zip_with Qcminus u v) = sumsq u + sumsq v - 2 * dot u v.
Proof.
  revert v. induction u as [|x u IH]; intros [|y v] Hlen; simplify_eq/=.
  - unfold sumsq, dot, sum. simpl. ring.
  - rewrite !sumsq_cons, dot_cons, IH by done. ring.
Qed.

Lemma sumsq_plus u v :
  length u = length v →
  sumsq (zip_with Qcplus u v) = sumsq u + sumsq v + 2 * dot u v.
Proof.
  revert v. induction u as [|x u IH]; intros [|y v] Hlen; simplify_eq/=.
  - unfold sumsq, dot, sum. simpl. ring.
  - rewrite !sumsq_cons, dot_cons, IH by done. ring.
Qed.

(** The squared residuals after the coupled update of lines 224-230. *)
Lemma sumsq_residuals mu u v :
  length u = length v →
  sumsq (zip_with (λ x y, x - mu * y) u v)
  + sumsq (zip_with (λ y x, y - mu * x) v u)
  = (1 + mu * mu) * (sumsq u + sumsq v) - 2 * 2 * mu * dot u v.
Proof.
  revert v. induction u as [|x u IH]; intros [|y v] Hlen; simplify_eq/=.
  - unfold sumsq, dot, sum. simpl. ring.
  - rewrite !sumsq_cons, dot_cons.
    assert (sumsq (zip_with (λ x y, x - mu * y) u v)
            = (1 + mu * mu) * (sumsq u + sumsq v) - 2 * 2 * mu * dot u v
              - sumsq (zip_with (λ y x, y - mu * x) v u)) as ->
      by (rewrite <- (IH v) by done; ring).
    ring.
Qed.

(** ** The reflection coefficient *)

(** With [D] the sum of the squares of the residuals it is computed
    from, [mu] has magnitude at most one. *)
Lemma burg_reflection_bound (u v : list Value) (D mu : Value) :
  length u = length v →
  D = sumsq u + sumsq v → D ≠ 0 → mu = 2 / D * dot u v →
  0 ≤ 1 - mu * mu ∧ 1 - mu * mu ≤ 1.
Proof.
  intros Hlen HD Hnz Hmu. split.
  - assert (0 ≤ D) as HD0.
    { rewrite HD. apply Qcplus_nonneg_nonneg; apply sumsq_nonneg. }
    assert (0 < D) as Hpos.
    { destruct (Qcle_lt_or_eq _ _ HD0) as [?|Heq]; [done|]. by destruct Hnz. }
    assert (0 ≤ (D - 2 * dot u v) * (D + 2 * dot u v)) as Hprod.
    { apply Qcmult_nonneg_nonneg.
      - rewrite HD, <- sumsq_minus by done. apply sumsq_nonneg.
      - rewrite HD, <- sumsq_plus by done. apply sumsq_nonneg. }
    apply (Qcmult_lt_0_le_reg_r _ _ (D * D)); [by apply Qcmult_pos_pos|].
    rewrite Qcmult_0_l.
    replace ((1 - mu * mu) * (D * D))
      with ((D - 2 * dot u v) * (D + 2 * dot u v)); [done|].
    rewrite Hmu. by field.
  - apply Qcle_minus_iff.
    replace (1 + - (1 - mu * mu)) with (mu * mu) by ring.
    apply Qc_square_nonneg.
Qed.

(** The recursion of line 231 for the denominator. *)
Lemma burg_Dk_recursion (D S mu : Value) :
  D ≠ 0 → mu = 2 / D * S →
  (1 + mu * mu) * D - 2 * 2 * mu * S = (1 - mu * mu) * D.
Proof. intros Hnz ->. by field. Qed.

Lemma burg_mu_spec kp1 st :
  (kp1 ≤ length (s_f st))%nat → (length (s_f st) ≤ kp1 + length (s_b st))%nat →
  burg_mu kp1 st = Ok (2 / s_Dk st * dot (drop kp1 (s_f st)) (s_b st)).
Proof.
  intros H1 H2. unfold burg_mu. rewrite vfrom_le by done. run.
  rewrite inner_product_spec by (rewrite length_drop; lia). run.
  by rewrite Qcplus_0_l.
Qed.

Lemma dot_take_r (u v : list Value) :
  dot u (take (length u) v) = dot u v.
Proof.
  revert v. induction u as [|x u IH]; intros [|y v]; simpl; try done.
  by rewrite !dot_cons, IH.
Qed.

(** ** The update of the residuals (lines 224-230) *)

Lemma burg_residuals_spec mu N kp1 (f b : list Value) :
  length f = N → length b = N → (kp1 ≤ N)%nat →
  ∃ f' b', burg_residuals mu N kp1 f b = Ok (f', b')
    ∧ length f' = N ∧ length b' = N
    ∧ drop kp1 f'
      = zip_with (λ x y, x - mu * y) (drop kp1 f) (take (N - kp1) b)
    ∧ take (N - kp1) b'
      = zip_with (λ y x, y - mu * x) (take (N - kp1) b) (drop kp1 f).
Proof.
  intros Hf Hb Hk. unfold burg_residuals.
  destruct (for_range_inv
    (λ m (s : list Value * list Value),
       length s.1 = N ∧ length s.2 = N
       ∧ (∀ n, (n < m)%nat →
            s.1 !! (n + kp1)%nat
            = (f !! (n + kp1)%nat ≫= λ x, b !! n ≫= λ y, Some (x - mu * y))
            ∧ s.2 !! n
              = (b !! n ≫= λ y, f !! (n + kp1)%nat ≫= λ x, Some (y - mu * x)))
       ∧ (∀ j, (m + kp1 ≤ j)%nat → s.1 !! j = f !! j)
       ∧ (∀ j, (m ≤ j)%nat → s.2 !! j = b !! j))
    0 (N - kp1)
    (λ n '(f, b), fn ← vget f (n + kp1)%nat; bn ← vget b n;
                  let t1 := fn - mu * bn in
                  let t2 := bn - mu * fn in
                  f ← vset f (n + kp1)%nat t1; b ← vset b n t2; Ok (f, b))
    (f, b)) as ([f' b'] & Hrun & Hf' & Hb' & Hlow & _).
  - simpl. repeat split; try done; try lia.
  - intros m [fm bm] Hm (Hfm & Hbm & Hlow & Hhf & Hhb). simpl in *.
    destruct (vget_lt fm (m + kp1)) as (x & Hx & ->); [lia|]. run.
    destruct (vget_lt bm m) as (y & Hy & ->); [lia|]. run. cbv zeta.
    rewrite !vset_lt by lia. run.
    eexists. split; [done|]. simpl. rewrite !length_insert.
    split; [done|]. split; [done|].
    rewrite Hhf in Hx by lia. rewrite Hhb in Hy by lia.
    split; [|split].
    + intros n Hn. destruct (decide (n = m)) as [->|Hne].
      * rewrite !list_lookup_insert_eq by lia. rewrite Hx, Hy. done.
      * rewrite !list_lookup_insert_ne by lia. apply Hlow. lia.
    + intros j Hj. rewrite list_lookup_insert_ne by lia. apply Hhf. lia.
    + intros j Hj. rewrite list_lookup_insert_ne by lia. apply Hhb. lia.
  - exists f', b'. simpl in *. split; [done|]. split; [done|]. split; [done|].
    split; apply list_eq; intros i.
    + rewrite lookup_drop, lookup_zip_with, lookup_drop, lookup_take.
      destruct (decide (i < N - kp1)%nat) as [Hi|Hi].
      * rewrite (Nat.add_comm kp1 i). by apply Hlow.
      * rewrite lookup_ge_None_2 by lia.
        by rewrite (lookup_ge_None_2 f) by lia.
    + rewrite lookup_zip_with, lookup_drop, !lookup_take.
      destruct (decide (i < N - kp1)%nat) as [Hi|Hi]; [|done].
      rewrite (Nat.add_comm kp1 i). by apply Hlow.
Qed.

(** ** One pass of the recursion *)

Lemma burg_sweep_shape mu kp1 (Ak : list Value) :
  (kp1 < length Ak)%nat →
  ∃ Ak', burg_sweep mu kp1 Ak = Ok Ak' ∧ length Ak' = length Ak.
Proof.
  intros Hk. unfold burg_sweep.
  destruct (for_range_inv (λ _ (A : list Value), length A = length Ak)
    0 (Datatypes.S (kp1 / 2))
    (λ n Ak, an ← vget Ak n; am ← vget Ak (kp1 - n)%nat;
             let t1 := an - mu * am in
             let t2 := am - mu * an in
             Ak ← vset Ak n t1; vset Ak (kp1 - n)%nat t2) Ak)
    as (Ak' & Hrun & Hlen); [done| |by exists Ak'].
  intros n A Hn HA.
  assert (n ≤ kp1)%nat.
  { pose proof (Nat.Div0.div_le_upper_bound kp1 2 kp1). lia. }
  destruct (vget_lt A n) as (an & _ & ->); [lia|]. run.
  destruct (vget_lt A (kp1 - n)) as (am & _ & ->); [lia|]. run. cbv zeta.
  rewrite vset_lt by lia. run.
  rewrite vset_lt by (rewrite length_insert; lia).
  eexists. split; [done|]. by rewrite !length_insert.
Qed.

Lemma burg_emit_spec p h kp1 st :
  (kp1 < length (s_Ak st))%nat →
  ∃ st', burg_emit p h kp1 st = Ok st'
    ∧ burg_core st' = burg_core st ∧ burg_emits p h kp1 st st'.
Proof.
  intros Hk. unfold burg_emit, burg_emits.
  destruct (h || (kp1 =? p)%nat); [|by exists st].
  rewrite vrange_le by lia. run. eexists. split; [done|].
  split; [done|]. simpl. eexists. rewrite vrange_le by lia.
  split; [done|]. split; [|done]. rewrite length_take, length_drop. lia.
Qed.

Lemma burg_update_spec N p kp1 st mu :
  (1 ≤ kp1 ≤ p)%nat → (p < N)%nat →
  length (s_f st) = N → length (s_b st) = N →
  ∃ st', burg_update mu N p kp1 st = Ok st'
    ∧ length (s_f st') = N ∧ length (s_b st') = N
    ∧ burg_model st' = burg_model st ∧ burg_sinks st' = burg_sinks st
    ∧ (s_Dk st ≠ 0 → burg_Dk_inv N kp1 st →
       mu = 2 / s_Dk st * dot (drop kp1 (s_f st)) (s_b st) →
       (kp1 < p)%nat → burg_Dk_inv N (Datatypes.S kp1) st').
Proof.
  intros Hk Hp Hf Hb. unfold burg_update.
  destruct (Nat.ltb_spec kp1 p) as [Hlt|Hge].
  2:{ exists st. repeat split; try done. lia. }
  destruct (burg_residuals_spec mu N kp1 (s_f st) (s_b st))
    as (f' & b' & -> & Hf' & Hb' & Hdf & Htb); [done|done|lia|]. run.
  destruct (vget_lt f' kp1) as (fk & Hfk & ->); [lia|]. run.
  destruct (vget_lt b' (N - kp1 - 1)) as (bl & Hbl & ->); [lia|]. run.
  eexists. split; [done|]. simpl. repeat split; try done.
  intros Hnz HD Hmu _. unfold burg_Dk_inv in *. simpl.
  set (u := drop kp1 (s_f st)) in *. set (v := take (N - kp1) (s_b st)) in *.
  assert (length u = length v) as Huv.
  { unfold u, v. rewrite length_drop, length_take. lia. }
  assert (mu = 2 / s_Dk st * dot u v) as Hmu'.
  { rewrite Hmu. f_equal. unfold v.
    replace (N - kp1)%nat with (length u)
      by (unfold u; rewrite length_drop; lia).
    by rewrite dot_take_r. }
  pose proof (sumsq_residuals mu u v Huv) as Hsq.
  rewrite <- Hdf, <- Htb, <- HD in Hsq.
  rewrite (burg_Dk_recursion _ _ _ Hnz Hmu') in Hsq.
  rewrite (drop_S _ _ _ Hfk), sumsq_cons in Hsq.
  replace (N - kp1)%nat with (Datatypes.S (N - kp1 - 1)) in Hsq by lia.
  rewrite (take_S_r _ _ _ Hbl), sumsq_app in Hsq.
  replace (N - Datatypes.S kp1)%nat with (N - kp1 - 1)%nat by lia.
  rewrite <- Hsq. replace (sumsq [bl]) with (bl * bl); [ring|].
  unfold sumsq, sum. simpl. ring.
Qed.

Lemma burg_iteration_spec N p h kp1 st :
  (1 ≤ kp1 ≤ p)%nat → (p < N)%nat → burg_shape N p kp1 st →
  ∃ mu st',
    burg_mu kp1 st = Ok mu
    ∧ burg_iteration N p h kp1 st = Ok st'
    ∧ burg_shape N p (Datatypes.S kp1) st'
    ∧ s_sigma2e st' = s_sigma2e st * (1 - mu * mu)
    ∧ burg_emits p h kp1 st st'
    ∧ (s_Dk st ≠ 0 → burg_Dk_inv N kp1 st →
       0 ≤ 1 - mu * mu ∧ 1 - mu * mu ≤ 1
       ∧ ((kp1 < p)%nat → burg_Dk_inv N (Datatypes.S kp1) st')).
Proof.
  intros Hk Hp (Hf & Hb & HAk & Hac).
  pose proof (burg_mu_spec kp1 st) as Hmu.
  rewrite Hf, Hb in Hmu. specialize (Hmu ltac:(lia) ltac:(lia)).
  set (mu := 2 / s_Dk st * dot (drop kp1 (s_f st)) (s_b st)) in *.
  unfold burg_iteration. rewrite Hmu. run. cbv zeta.
  destruct (burg_sweep_shape mu kp1 (s_Ak st)) as (Ak & -> & HAk'); [lia|]. run.
  destruct (vget_lt Ak kp1) as (akp1 & _ & ->); [lia|]. run.
  rewrite vfrom_le by lia. run.
  rewrite inner_product_spec
    by (rewrite length_rev, length_drop; lia). run.
  set (st1 := BurgState _ _ _ _ _ _ _ _ _ _).
  destruct (burg_emit_spec p h kp1 st1) as (st2 & -> & Hcore & Hemit);
    [simpl; lia|]. run.
  injection Hcore as Hf2 Hb2 HD2 Hs2 HA2 Hg2 Ha2.
  destruct (burg_update_spec N p kp1 st2 mu)
    as (st3 & -> & Hf3 & Hb3 & Hmodel & Hsinks & HD3);
    [done|done|by rewrite Hf2|by rewrite Hb2|].
  injection Hmodel as Hs3 HA3 Hg3 Ha3.
  injection Hsinks as Hp3 Hso3 Hgo3.
  exists mu, st3. split; [done|]. split; [done|].
  split; [|split; [|split]].
  - repeat split; try done.
    + rewrite HA3, HA2. simpl. lia.
    + rewrite Ha3, Ha2. simpl. rewrite length_app. simpl. lia.
  - by rewrite Hs3, Hs2.
  - unfold burg_emits in *. destruct (h || (kp1 =? p)%nat).
    + destruct Hemit as (block & Hr & Hlen & H1 & H2 & H3). exists block.
      rewrite HA3, Hp3, Hso3, Hgo3, Hs3, Hg3. done.
    + unfold burg_sinks in *. rewrite Hp3, Hso3, Hgo3. done.
  - intros Hnz HD.
    assert (0 ≤ 1 - mu * mu ∧ 1 - mu * mu ≤ 1) as [H1 H2].
    { apply (burg_reflection_bound (drop kp1 (s_f st))
               (take (N - kp1) (s_b st)) (s_Dk st)); [|done|done|].
      - rewrite length_drop, length_take. lia.
      - unfold mu. f_equal.
        rewrite <- (dot_take_r _ (s_b st)), length_drop, Hf. done. }
    split; [done|]. split; [done|]. apply HD3.
    + by rewrite HD2.
    + unfold burg_Dk_inv. rewrite HD2, Hf2, Hb2. done.
    + rewrite HD2, Hf2, Hb2. done.
Qed.

(** ** The order that is fitted (line 165) *)

Lemma size_modulus_eq : size_modulus = 18446744073709551616%Z.
Proof. reflexivity. Qed.

Lemma wrap_small z : (0 ≤ z < size_modulus)%Z → wrap z = z.
Proof. intros H. unfold wrap. by apply Z.mod_small. Qed.

Lemma clamp_maxorder_spec (maxorder N : Z) :
  (0 ≤ maxorder < size_max)%Z → (1 ≤ N)%Z →
  clamp_maxorder maxorder N = (Z.min (maxorder + 1) N - 1)%Z.
Proof.
  unfold size_max. rewrite size_modulus_eq. intros H HN. unfold clamp_maxorder.
  rewrite (wrap_small (maxorder + 1)) by (rewrite size_modulus_eq; lia).
  apply wrap_small. rewrite size_modulus_eq. lia.
Qed.

(** ** The state on entry to the loop (lines 170-185) *)

Lemma Value_of_nat_pos n : (1 ≤ n)%nat → 0 < Value_of_nat n.
Proof.
  intros Hn. unfold Value_of_nat, Value_of_Z.
  rewrite <- Z2Qc_inj_0. apply (proj1 (Z2Qc_inj_lt 0 (Z.of_nat n))). lia.
Qed.

Lemma Qcdiv_nonneg (x y : Value) : 0 ≤ x → 0 < y → 0 ≤ x / y.
Proof.
  intros Hx Hy. unfold Qcdiv. apply Qcmult_nonneg_nonneg; [done|].
  by apply Qclt_le_weak, Qcinv_pos.
Qed.

Lemma burg_init_spec (data : list Value) mean (p : Z) sm :
  (2 ≤ length data)%nat → (0 ≤ p < size_max)%Z →
  ∃ st, burg_init data mean p sm = Ok st
    ∧ burg_shape (length data) (Z.to_nat p) 1 st
    ∧ burg_Dk_inv (length data) 1 st
    ∧ 0 ≤ s_sigma2e st
    ∧ burg_sinks st = ([], [], []).
Proof.
  intros HN Hp. unfold burg_init. cbv zeta.
  set (f := if sm then _ else _).
  assert (length f = length data) as Hf.
  { unfold f. destruct sm; [by rewrite length_fmap|done]. }
  rewrite inner_product_spec by done. run.
  destruct (vget_lt f 0) as (f0 & Hf0 & ->); [lia|]. run.
  destruct (vget_lt f (length data - 1)) as (fl & Hfl & ->); [lia|]. run.
  assert (wrap (p + 1) = (p + 1)%Z) as ->.
  { apply wrap_small. unfold size_max in Hp. lia. }
  rewrite vset_lt by (rewrite length_replicate; lia). run.
  eexists. split; [done|]. rewrite dot_self, Qcplus_0_l. split; [|split; [|split]].
  - repeat split; simpl; try done.
    rewrite length_insert, length_replicate. lia.
  - unfold burg_Dk_inv. simpl.
    pose proof (drop_S _ _ _ Hf0) as H0. rewrite drop_0 in H0.
    assert (sumsq f = f0 * f0 + sumsq (drop 1 f)) as E1
      by (rewrite H0 at 1; apply sumsq_cons).
    assert (sumsq f = sumsq (take (length data - 1) f) + fl * fl) as E2.
    { rewrite <- (firstn_all f) at 1. rewrite Hf.
      replace (length data) with (Datatypes.S (length data - 1)) at 1 by lia.
      rewrite (take_S_r _ _ _ Hfl), sumsq_app. f_equal.
      unfold sumsq, sum. simpl. ring. }
    rewrite <- (Qcplus_0_r (sumsq (drop 1 f))).
    replace (sumsq (drop 1 f)) with (sumsq f - f0 * f0) by (rewrite E1; ring).
    replace (sumsq (take (length data - 1) f)) with (sumsq f - fl * fl)
      by (rewrite E2; ring).
    ring.
  - simpl. apply Qcdiv_nonneg; [apply sumsq_nonneg|].
    apply Value_of_nat_pos. lia.
  - done.
Qed.

(** ** The recursion as a whole *)

Section Recursion.
Variables (N p : nat) (h : bool) (st0 : burg_state).
Hypothesis Hp : (p < N)%nat.
Hypothesis Hshape : burg_shape N p 1 st0.

Let body := burg_iteration N p h.

(** The passes run to the end whatever the data. *)
Lemma burg_loop_total k :
  (k ≤ p)%nat →
  ∃ st, for_range 1 k body st0 = Ok st
        ∧ burg_shape N p (Datatypes.S k) st.
Proof.
  intros Hk.
  destruct (for_range_inv (λ i st, burg_shape N p i st) 1 k body st0)
    as (st & Hrun & Hst); [done| |by exists st].
  intros i st Hi Hst.
  destruct (burg_iteration_spec N p h i st) as (mu & st' & _ & Hrun & Hst' & _);
    [lia|done|done|]. by exists st'.
Qed.

Hypothesis HDk0 : burg_Dk_inv N 1 st0.
Hypothesis Hsigma0 : 0 ≤ s_sigma2e st0.
Hypothesis Hsinks0 : burg_sinks st0 = ([], [], []).
Hypothesis Hh : h = true.

(** No pass divides by [Dk = 0]. *)
Hypothesis HDk_nonzero : ∀ kp1 st,
  (1 ≤ kp1 ≤ p)%nat → for_range 1 (kp1 - 1) body st0 = Ok st →
  s_Dk st ≠ 0.

Lemma burg_loop_sigma2e k :
  (k ≤ p)%nat →
  ∃ st, for_range 1 k body st0 = Ok st
        ∧ length (s_sigma2e_out st) = k
        ∧ sigma2e_chain body st0 (s_sigma2e_out st).
Proof.
  intros Hk.
  destruct (for_range_inv
    (λ i st, for_range 1 (i - 1) body st0 = Ok st
             ∧ burg_shape N p i st
             ∧ ((i ≤ p)%nat → burg_Dk_inv N i st)
             ∧ 0 ≤ s_sigma2e st
             ∧ length (s_sigma2e_out st) = (i - 1)%nat
             ∧ (∀ x, last (s_sigma2e_out st) = Some x → x = s_sigma2e st)
             ∧ sigma2e_chain body st0 (s_sigma2e_out st))
    1 k body st0) as (st & Hrun & _ & _ & _ & _ & Hlen & _ & Hchain).
  - injection Hsinks0 as _ Hs _. rewrite Hs.
    do 6 (split; [done|]). split; [done|]. by intros j x y Hx.
  - intros i st Hi (Hreach & Hst & HD & Hs & Hlen & Hlast & Hpos & Hpairs).
    destruct (burg_iteration_spec N p h i st)
      as (mu & st' & Hmu & Hrun & Hst' & Hs' & Hemit & Hnum);
      [lia|done|done|].
    destruct Hnum as (Hlo & Hhi & HD'); [by apply (HDk_nonzero i); [lia|]|apply HD; lia|].
    unfold burg_emits in Hemit. rewrite Hh in Hemit. simpl in Hemit.
    destruct Hemit as (block & _ & _ & _ & Hout & _).
    assert (0 ≤ s_sigma2e st') as Hs'pos.
    { rewrite Hs'. by apply Qcmult_nonneg_nonneg. }
    exists st'. split; [done|].
  split; [|split; [done|split; [|split; [done|split; [|split; [|split]]]]]].
    + replace (Datatypes.S i - 1)%nat with (Datatypes.S (i - 1)) by lia.
      rewrite for_range_snoc, Hreach. run.
      by replace (1 + (i - 1))%nat with i by lia.
    + intros Hle. apply HD'. lia.
    + rewrite Hout, length_app, Hlen. simpl. lia.
    + intros x. rewrite Hout, last_snoc. by intros [= <-].
    + rewrite Hout. apply Forall_app. split; [done|]. by apply Forall_singleton.
    + intros j x y. rewrite Hout. intros Hx Hy.
      destruct (decide (Datatypes.S j < length (s_sigma2e_out st))%nat) as [Hj|Hj].
      * rewrite lookup_app_l in Hx, Hy by lia. by apply Hpairs.
      * assert (Datatypes.S j = length (s_sigma2e_out st)) as Hj'.
        { apply lookup_lt_Some in Hy. rewrite length_app in Hy. simpl in Hy. lia. }
        rewrite lookup_app_l in Hx by lia.
        rewrite lookup_app_r, Hj', Nat.sub_diag in Hy by lia.
        injection Hy as <-.
        assert (x = s_sigma2e st) as ->.
        { apply Hlast. rewrite last_lookup, <- Hj'. done. }
        split.
        -- rewrite Hs'. rewrite <- (Qcmult_1_r (s_sigma2e st)) at 2.
           by apply Qcmult_le_mono_nonneg_l.
        -- exists st, mu. replace (Datatypes.S j) with (i - 1)%nat by lia.
           replace (Datatypes.S (i - 1)) with i by lia. done.
  - exists st. replace (1 + k - 1)%nat with k in Hlen by lia. done.
Qed.
End Recursion.

Lemma length_ge_1 {A} (l : list A) : l ≠ [] → (1 ≤ length l)%nat.
Proof. destruct l; simpl; [done|lia]. Qed.

(** The order fitted from nonempty data is below the number of samples. *)
Lemma clamp_maxorder_bounds (maxorder : Z) (N : nat) :
  (0 ≤ maxorder < size_max)%Z → (1 ≤ N)%nat →
  (0 ≤ clamp_maxorder maxorder (Z.of_nat N) ≤ maxorder)%Z
  ∧ (Z.to_nat (clamp_maxorder maxorder (Z.of_nat N)) < N)%nat.
Proof.
  intros Hm HN. rewrite clamp_maxorder_spec by lia. lia.
Qed.

(** The emitted [sigma2e] of a call that runs to its end. *)
Lemma burg_sigma2e_in_range (data : list Value) (maxorder : Z)
    (subtract_mean : bool) :
  data ≠ [] → (0 ≤ maxorder < size_max)%Z →
  (∀ kp1 st,
     (1 ≤ kp1 ≤ Z.to_nat (clamp_maxorder maxorder (Z.of_nat (length data))))%nat →
     burg_entry data maxorder subtract_mean true kp1 = Ok st →
     s_Dk st ≠ 0) →
  ∃ out, burg_method data maxorder subtract_mean true = Ok out
    ∧ length (o_sigma2e out) = Z.to_nat (o_maxorder out)
    ∧ Forall (λ x, 0 ≤ x) (o_sigma2e out)
    ∧ ∀ k x y,
        o_sigma2e out !! k = Some x →
        o_sigma2e out !! Datatypes.S k = Some y →
        y ≤ x
        ∧ ∃ st mu,
            burg_entry data maxorder subtract_mean true
              (Datatypes.S (Datatypes.S k)) = Ok st
            ∧ burg_mu (Datatypes.S (Datatypes.S k)) st = Ok mu
            ∧ y = x * (1 - mu * mu).
Proof.
  intros Hne Hm HDk. pose proof (length_ge_1 _ Hne) as HN.
  destruct (clamp_maxorder_bounds maxorder (length data) Hm HN) as [Hc Hlt].
  unfold burg_method. cbv zeta.
  rewrite (pairwise_mean_spec data Hne). run.
  set (p := clamp_maxorder maxorder (Z.of_nat (length data))) in *.
  destruct (Z.eqb_spec p 0) as [Hz|Hnz].
  { eexists. split; [done|]. simpl. rewrite Hz. by repeat split. }
  destruct (burg_init_spec data (sum data / Value_of_nat (length data)) p
              subtract_mean) as (st0 & Hinit & Hshape & HD0 & Hs0 & Hsinks);
    [lia|lia|].
  assert (∀ kp1, burg_entry data maxorder subtract_mean true kp1
                 = for_range 1 (kp1 - 1)
                     (burg_iteration (length data) (Z.to_nat p) true) st0)
    as Hentry.
  { intros kp1. unfold burg_entry. cbv zeta.
    rewrite (pairwise_mean_spec data Hne). run. fold p. by rewrite Hinit. }
  rewrite Hinit. run.
  destruct (burg_loop_sigma2e (length data) (Z.to_nat p) true st0
              Hlt Hshape HD0 Hs0 Hsinks eq_refl) with (k := Z.to_nat p)
    as (st & -> & Hlen & Hpos & Hpairs); [|done|].
  { intros kp1 st Hk Hrun. apply (HDk kp1); [done|]. by rewrite Hentry. }
  run. eexists. split; [done|]. simpl. split; [done|]. split; [done|].
  intros k x y Hx Hy.
  destruct (Hpairs k x y Hx Hy) as (Hle & st' & mu & H1 & H2 & H3).
  split; [done|]. exists st', mu. rewrite Hentry.
  replace (Datatypes.S (Datatypes.S k) - 1)%nat with (Datatypes.S k) by lia.
  done.
Qed.

(** ** The hierarchy flag only selects what is written *)

Ltac burg_fields :=
  cbn [s_f s_b s_Dk s_sigma2e s_Ak s_gain s_autocor s_params_out
       s_sigma2e_out s_gain_out] in *.

Lemma burg_emit_core p h kp1 st st' :
  burg_emit p h kp1 st = Ok st' → burg_core st' = burg_core st.
Proof.
  unfold burg_emit. destruct (h || (kp1 =? p)%nat).
  - destruct (vrange (s_Ak st) 1 (kp1 + 1)); run; [|done]. by intros [= <-].
  - by intros [= <-].
Qed.

Lemma burg_update_core mu N p kp1 st1 st2 st1' st2' :
  burg_core st1 = burg_core st2 →
  burg_update mu N p kp1 st1 = Ok st1' →
  burg_update mu N p kp1 st2 = Ok st2' →
  burg_core st1' = burg_core st2'.
Proof.
  destruct st1 as [f b D s A g ac po1 so1 go1],
           st2 as [f2 b2 D2 s2 A2 g2 ac2 po2 so2 go2].
  intros [= <- <- <- <- <- <- <-]. unfold burg_update. burg_fields.
  destruct (kp1 <? p)%nat; [|by intros [= <-] [= <-]].
  destruct (burg_residuals mu N kp1 f b) as [[f' b']|]; [|done]. run.
  destruct (vget f' kp1) as [fk|]; [|done]. run.
  destruct (vget b' (N - kp1 - 1)) as [bl|]; [|done]. run.
  by intros [= <-] [= <-].
Qed.

Lemma burg_iteration_core N p h1 h2 kp1 st1 st2 st1' st2' :
  burg_core st1 = burg_core st2 →
  burg_iteration N p h1 kp1 st1 = Ok st1' →
  burg_iteration N p h2 kp1 st2 = Ok st2' →
  burg_core st1' = burg_core st2'.
Proof.
  destruct st1 as [f b D s A g ac po1 so1 go1],
           st2 as [f2 b2 D2 s2 A2 g2 ac2 po2 so2 go2].
  intros [= <- <- <- <- <- <- <-]. unfold burg_iteration. burg_fields.
  unfold burg_mu. burg_fields.
  destruct (vfrom f kp1) as [fr|]; [|done]. run.
  destruct (inner_product fr b 0) as [ip|]; [|done]. run.
  set (mu := 2 / D * ip).
  destruct (burg_sweep mu kp1 A) as [A'|]; [|done]. run.
  destruct (vget A' kp1) as [akp1|]; [|done]. run.
  destruct (vfrom A' 1) as [ak1|]; [|done]. run.
  destruct (inner_product (rev ac) ak1 akp1) as [a|]; [|done]. run. cbv zeta.
  set (m1 := BurgState _ _ _ _ _ _ _ po1 _ _).
  set (m2 := BurgState _ _ _ _ _ _ _ po2 _ _).
  destruct (burg_emit p h1 kp1 m1) as [e1|] eqn:He1; [|done].
  destruct (burg_emit p h2 kp1 m2) as [e2|] eqn:He2; [|done]. run.
  apply burg_emit_core in He1, He2. apply burg_update_core.
  by rewrite He1, He2.
Qed.


Lemma burg_blocks_length k blocks :
  burg_blocks k blocks → (2 * length (concat blocks) = k * (k + 1))%nat.
Proof.
  revert k. induction blocks as [|blk blocks IH] using rev_ind;
    intros k [Hlen Hblk].
  - simpl in *. subst. done.
  - rewrite length_app in Hlen. simpl in Hlen.
    rewrite concat_app, length_app. simpl. rewrite app_nil_r.
    specialize (IH (length blocks)).
    rewrite (Hblk (length blocks) blk)
      by (rewrite lookup_app_r, Nat.sub_diag by lia; done).
    assert (2 * length (concat blocks)
            = length blocks * (length blocks + 1))%nat as E.
    { apply IH. split; [done|]. intros j b Hj. apply Hblk.
      by rewrite lookup_app_l by (by apply lookup_lt_Some in Hj). }
    nia.
Qed.

Section Hierarchy.
Variables (N p : nat) (st0 : burg_state).
Hypothesis Hp : (p < N)%nat.
Hypothesis Hshape : burg_shape N p 1 st0.
Hypothesis Hsinks0 : burg_sinks st0 = ([], [], []).

Lemma burg_loop_hierarchy k :
  (k ≤ p)%nat →
  ∃ st_t st_f blocks,
    for_range 1 k (burg_iteration N p true) st0 = Ok st_t
    ∧ for_range 1 k (burg_iteration N p false) st0 = Ok st_f
    ∧ burg_core st_t = burg_core st_f
    ∧ burg_shape N p (Datatypes.S k) st_t
    ∧ burg_shape N p (Datatypes.S k) st_f
    ∧ s_params_out st_t = concat blocks ∧ burg_blocks k blocks
    ∧ length (s_sigma2e_out st_t) = k ∧ length (s_gain_out st_t) = k
    ∧ ((1 ≤ k)%nat →
         last (s_sigma2e_out st_t) = Some (s_sigma2e st_t)
         ∧ last (s_gain_out st_t) = Some (s_gain st_t))
    ∧ ((k < p)%nat → burg_sinks st_f = ([], [], []))
    ∧ ((1 ≤ k)%nat → k = p →
         last blocks = Some (s_params_out st_f)
         ∧ s_sigma2e_out st_f = [s_sigma2e st_f]
         ∧ s_gain_out st_f = [s_gain st_f]).
Proof.
  induction k as [|k IH]; intros Hk.
  - exists st0, st0, []. pose proof Hsinks0 as Hs. injection Hs as H1 H2 H3.
    rewrite H1, H2, H3. simpl. destruct Hshape as (? & ? & ? & ?).
    repeat split; try done; intros; lia.
  - destruct IH as (st_t & st_f & blocks & Ht & Hf & Hcore & Hsh_t & Hsh_f
                    & Hpar & Hblk & Hls & Hlg & Hlast & Hempty & _); [lia|].
    rewrite !for_range_snoc, Ht, Hf. run.
    replace (1 + k)%nat with (Datatypes.S k) by lia.
    destruct (burg_iteration_spec N p true (Datatypes.S k) st_t)
      as (mu & st_t' & _ & Ht' & Hsh_t' & _ & Hemit_t & _); [lia|done|done|].
    destruct (burg_iteration_spec N p false (Datatypes.S k) st_f)
      as (mu' & st_f' & _ & Hf' & Hsh_f' & _ & Hemit_f & _); [lia|done|done|].
    pose proof (burg_iteration_core _ _ _ _ _ _ _ _ _ Hcore Ht' Hf') as Hcore'.
    unfold burg_emits in Hemit_t, Hemit_f.
    rewrite orb_true_l in Hemit_t. rewrite orb_false_l in Hemit_f.
    destruct Hemit_t as (block & Hr & Hblen & Hp' & Hs' & Hg').
    injection Hcore' as Ef Eb ED Es EA Eg Ea.
    exists st_t', st_f', (blocks ++ [block]).
    split; [done|]. split; [done|]. split; [by unfold burg_core; congruence|].
    split; [done|]. split; [done|]. split.
    { rewrite Hp', Hpar, concat_app. simpl. by rewrite app_nil_r. }
    destruct Hblk as [Hbl Hbk]. split.
    { split; [rewrite length_app; simpl; lia|].
      intros j blk Hj. destruct (decide (j < length blocks)%nat).
      - rewrite lookup_app_l in Hj by done. by apply Hbk.
      - assert (j = length blocks) as ->.
        { apply lookup_lt_Some in Hj. rewrite length_app in Hj. simpl in Hj. lia. }
        rewrite lookup_app_r, Nat.sub_diag in Hj by lia.
        injection Hj as <-. lia. }
    split; [rewrite Hs', length_app; simpl; lia|].
    split; [rewrite Hg', length_app; simpl; lia|].
    split; [intros _; by rewrite Hs', Hg', !last_snoc|].
    specialize (Hempty ltac:(lia)). injection Hempty as E1 E2 E3.
    revert Hemit_f.
    destruct (Nat.eqb_spec (Datatypes.S k) p) as [Heq|Hne];
      intros Hemit_f; split.
    + lia.
    + intros _ _. destruct Hemit_f as (block' & Hr' & _ & Hp'' & Hs'' & Hg'').
      rewrite EA, Hr' in Hr. injection Hr as <-.
      rewrite last_snoc, Hp'', Hs'', Hg'', E1, E2, E3. done.
    + intros _. rewrite Hemit_f. unfold burg_sinks. by rewrite E1, E2, E3.
    + intros _ ?. lia.
Qed.
End Hierarchy.

(** ** The passes do not depend on the order that was asked for *)

Section Padding.
Context {A : Type}.
Implicit Types (v zs : list A).

Lemma vget_app v zs i x : vget v i = Ok x → vget (v ++ zs) i = Ok x.
Proof. rewrite !vget_Ok. apply lookup_app_l_Some. Qed.

Lemma vset_app v zs i x v' :
  vset v i x = Ok v' → vset (v ++ zs) i x = Ok (v' ++ zs).
Proof.
  rewrite !vset_Ok, length_app. intros [Hi ->]. split; [lia|].
  by rewrite insert_app_l.
Qed.

Lemma vfrom_app v zs lo r :
  vfrom v lo = Ok r → vfrom (v ++ zs) lo = Ok (r ++ zs).
Proof.
  unfold vfrom. case_decide; [|done]. intros [= <-].
  rewrite decide_True by (rewrite length_app; lia).
  by rewrite drop_app_le.
Qed.

Lemma vrange_app v zs lo hi r :
  vrange v lo hi = Ok r → vrange (v ++ zs) lo hi = Ok r.
Proof.
  unfold vrange. case_decide as H; [|done]. intros [= <-].
  rewrite decide_True by (rewrite length_app; lia).
  rewrite drop_app_le by lia. rewrite take_app_le; [done|].
  rewrite length_drop. lia.
Qed.
End Padding.

Lemma inner_product_app r1 r2 zs init x :
  inner_product r1 r2 init = Ok x → inner_product r1 (r2 ++ zs) init = Ok x.
Proof.
  revert r2 init. induction r1 as [|a r1 IH]; intros [|b r2] init; simpl; try done.
  apply IH.
Qed.

Lemma for_range_sim {S1 S2 : Type} (R : S1 → S2 → Prop) lo count
    (body1 : nat → S1 → result S1) (body2 : nat → S2 → result S2) s1 s2 s1' :
  R s1 s2 →
  (∀ i s1 s2 s1', R s1 s2 → body1 i s1 = Ok s1' →
                  ∃ s2', body2 i s2 = Ok s2' ∧ R s1' s2') →
  for_range lo count body1 s1 = Ok s1' →
  ∃ s2', for_range lo count body2 s2 = Ok s2' ∧ R s1' s2'.
Proof.
  intros HR Hstep. revert lo s1 s2 HR.
  induction count as [|c IH]; intros lo s1 s2 HR; cbn [for_range].
  - intros [= <-]. by exists s2.
  - intros H. apply bind_Ok in H as (m1 & Hb & Hrest).
    destruct (Hstep _ _ _ _ HR Hb) as (m2 & -> & HR'). run.
    by apply (IH (Datatypes.S lo) m1).
Qed.

Lemma burg_sweep_app mu kp1 (Ak zs Ak' : list Value) :
  burg_sweep mu kp1 Ak = Ok Ak' →
  burg_sweep mu kp1 (Ak ++ zs) = Ok (Ak' ++ zs).
Proof.
  unfold burg_sweep. intros H.
  eapply (for_range_sim (λ A1 A2, A2 = A1 ++ zs)) in H as (A2 & -> & ->);
    [done|done|].
  intros n A1 A2 A1' -> Hb.
  apply bind_Ok in Hb as (an & Han & Hb).
  apply bind_Ok in Hb as (am & Ham & Hb). cbv zeta in Hb.
  apply bind_Ok in Hb as (A3 & Hs1 & Hs2).
  rewrite (vget_app _ zs _ _ Han). run.
  rewrite (vget_app _ zs _ _ Ham). run. cbv zeta.
  rewrite (vset_app _ zs _ _ _ Hs1). run.
  rewrite (vset_app _ zs _ _ _ Hs2). by eexists.
Qed.

Lemma burg_emit_inv p h kp1 st st' :
  burg_emit p h kp1 st = Ok st' →
  burg_core st' = burg_core st
  ∧ if h || (kp1 =? p)%nat then
      ∃ block, vrange (s_Ak st) 1 (kp1 + 1) = Ok block
        ∧ s_params_out st' = s_params_out st ++ block
        ∧ s_sigma2e_out st' = s_sigma2e_out st ++ [s_sigma2e st]
        ∧ s_gain_out st' = s_gain_out st ++ [s_gain st]
    else st' = st.
Proof.
  intros H. split; [by apply burg_emit_core in H|]. unfold burg_emit in H.
  destruct (h || (kp1 =? p)%nat).
  - destruct (vrange (s_Ak st) 1 (kp1 + 1)) as [block|]; [|done].
    injection H as <-. by exists block.
  - by injection H.
Qed.

(** The state between the computation of the model and lines 212-232. *)
Lemma burg_iteration_inv N p h kp1 st st' :
  burg_iteration N p h kp1 st = Ok st' →
  ∃ mu Ak akp1 ac,
    burg_mu kp1 st = Ok mu
    ∧ burg_sweep mu kp1 (s_Ak st) = Ok Ak
    ∧ vget Ak kp1 = Ok akp1
    ∧ inner_product (rev (s_autocor st)) (drop 1 Ak) akp1 = Ok ac
    ∧ (1 ≤ length Ak)%nat
    ∧ (burg_emit p h kp1
         (BurgState (s_f st) (s_b st) (s_Dk st)
            (s_sigma2e st * (1 - mu * mu)) Ak
            (s_gain st * (1 / (1 - akp1 * akp1)))
            (s_autocor st ++ [- ac])
            (s_params_out st) (s_sigma2e_out st) (s_gain_out st))
       ≫= burg_update mu N p kp1) = Ok st'.
Proof.
  unfold burg_iteration. intros H.
  apply bind_Ok in H as (mu & Hmu & H). cbv zeta in H.
  apply bind_Ok in H as (Ak & Hsw & H).
  apply bind_Ok in H as (akp1 & Hget & H).
  apply bind_Ok in H as (ak1 & Hfrom & H).
  apply bind_Ok in H as (ac & Hip & H).
  unfold vfrom in Hfrom. case_decide; [|done]. injection Hfrom as <-.
  by exists mu, Ak, akp1, ac.
Qed.

Lemma burg_update_inv mu N p kp1 st st' :
  burg_update mu N p kp1 st = Ok st' →
  burg_model st' = burg_model st ∧ burg_sinks st' = burg_sinks st
  ∧ if (kp1 <? p)%nat then
      ∃ f' b' fk bl,
        burg_residuals mu N kp1 (s_f st) (s_b st) = Ok (f', b')
        ∧ vget f' kp1 = Ok fk ∧ vget b' (N - kp1 - 1) = Ok bl
        ∧ s_f st' = f' ∧ s_b st' = b'
        ∧ s_Dk st' = (1 - mu * mu) * s_Dk st - fk * fk - bl * bl
    else st' = st.
Proof.
  unfold burg_update. destruct (kp1 <? p)%nat; [|by intros [= <-]].
  intros H. apply bind_Ok in H as ([f' b'] & Hres & H).
  apply bind_Ok in H as (fk & Hfk & H). apply bind_Ok in H as (bl & Hbl & H).
  cbv zeta in H. injection H as <-. split; [done|]. split; [done|].
  by exists f', b', fk, bl.
Qed.

Lemma burg_iteration_pad N q p h1 h2 kp1 zs sq sp sq' sp' :
  burg_pad zs sq sp →
  burg_iteration N q h1 kp1 sq = Ok sq' →
  burg_iteration N p h2 kp1 sp = Ok sp' →
  (* the model and what goes to the sinks *)
  s_sigma2e sq' = s_sigma2e sp' ∧ s_gain sq' = s_gain sp'
  ∧ s_autocor sq' = s_autocor sp' ∧ s_Ak sp' = s_Ak sq' ++ zs
  ∧ (∀ block, vrange (s_Ak sq') 1 (kp1 + 1) = Ok block →
              vrange (s_Ak sp') 1 (kp1 + 1) = Ok block)
  (* the residuals, when both calls go on *)
  ∧ ((kp1 < q)%nat → (kp1 < p)%nat → burg_pad zs sq' sp').
Proof.
  intros (Ef & Eb & ED & Es & Eg & Ea & EA) Hq Hp.
  apply burg_iteration_inv in Hq
    as (mu & Ak & akp1 & ac & Hmu & Hsw & Hget & Hip & HAk & Hq).
  apply burg_iteration_inv in Hp
    as (mu' & Ak' & akp1' & ac' & Hmu' & Hsw' & Hget' & Hip' & HAk' & Hp).
  assert (mu' = mu) as ->.
  { unfold burg_mu in *. rewrite <- Ef, <- Eb, <- ED, Hmu in Hmu'. congruence. }
  rewrite EA, (burg_sweep_app _ _ _ zs _ Hsw) in Hsw'. injection Hsw' as <-.
  rewrite (vget_app _ zs _ _ Hget) in Hget'. injection Hget' as <-.
  rewrite <- Ea, drop_app_le, (inner_product_app _ _ zs _ _ Hip) in Hip' by done.
  injection Hip' as <-.
  rewrite <- Ef, <- Eb, <- ED, <- Es, <- Eg, <- Ea in Hp.
  apply bind_Ok in Hq as (eq & Heq & Hq). apply bind_Ok in Hp as (ep & Hep & Hp).
  apply burg_emit_core in Heq, Hep.
  injection Heq as Ef1 Eb1 ED1 Es1 EA1 Eg1 Ea1.
  injection Hep as Ef2 Eb2 ED2 Es2 EA2 Eg2 Ea2.
  apply burg_update_inv in Hq as (Mq & _ & Hq), Hp as (Mp & _ & Hp).
  injection Mq as Es3 EA3 Eg3 Ea3. injection Mp as Es4 EA4 Eg4 Ea4.
  split; [congruence|]. split; [congruence|]. split; [congruence|].
  assert (s_Ak sp' = s_Ak sq' ++ zs) as EA' by congruence.
  split; [done|]. split.
  { intros block Hb. rewrite EA'. by apply vrange_app. }
  intros Hkq Hkp.
  apply Nat.ltb_lt in Hkq, Hkp. rewrite Hkq in Hq. rewrite Hkp in Hp.
  destruct Hq as (f1 & b1 & fk1 & bl1 & Hr1 & Hf1 & Hb1 & <- & <- & HD1).
  destruct Hp as (f2 & b2 & fk2 & bl2 & Hr2 & Hf2 & Hb2 & <- & <- & HD2).
  rewrite Ef1, Eb1 in Hr1. rewrite Ef2, Eb2, Hr1 in Hr2.
  injection Hr2 as E1 E2. rewrite <- E1, Hf1 in Hf2. rewrite <- E2, Hb1 in Hb2.
  injection Hf2 as <-. injection Hb2 as <-.
  unfold burg_pad. rewrite HD1, HD2, ED1, ED2.
  repeat split; try done; congruence.
Qed.

Section Orders.
Variables (N p : nat) (mean : Value) (init : nat → burg_state).
Hypothesis Hp : (1 ≤ p < N)%nat.
Hypothesis Hinit : ∀ q, (1 ≤ q ≤ p)%nat →
  burg_shape N q 1 (init q) ∧ burg_sinks (init q) = ([], [], [])
  ∧ burg_pad (replicate (p - q) 0) (init q) (init p).

Lemma burg_loop_pad q h k :
  (1 ≤ q ≤ p)%nat → (k < q)%nat →
  ∃ sq sp,
    for_range 1 k (burg_iteration N q false) (init q) = Ok sq
    ∧ for_range 1 k (burg_iteration N p h) (init p) = Ok sp
    ∧ burg_pad (replicate (p - q) 0) sq sp
    ∧ burg_shape N q (Datatypes.S k) sq
    ∧ burg_shape N p (Datatypes.S k) sp
    ∧ burg_sinks sq = ([], [], []).
Proof.
  intros Hq Hk. destruct (Hinit q Hq) as (Hshq & Hsq & Hpad).
  destruct (Hinit p ltac:(lia)) as (Hshp & _ & _).
  induction k as [|k IH].
  - exists (init q), (init p). do 5 (split; [done|]). done.
  - destruct IH as (sq & sp & Hrq & Hrp & Hpd & Hs1 & Hs2 & Hsk); [lia|].
    rewrite !for_range_snoc, Hrq, Hrp. run.
    replace (1 + k)%nat with (Datatypes.S k) by lia.
    destruct (burg_iteration_spec N q false (Datatypes.S k) sq)
      as (mu & sq' & _ & Hq' & Hs1' & _ & Hem & _); [lia|lia|done|].
    destruct (burg_iteration_spec N p h (Datatypes.S k) sp)
      as (mu' & sp' & _ & Hp' & Hs2' & _ & _ & _); [lia|lia|done|].
    exists sq', sp'. split; [done|]. split; [done|].
    destruct (burg_iteration_pad _ _ _ _ _ _ _ _ _ _ _ Hpd Hq' Hp')
      as (_ & _ & _ & _ & _ & Hpd').
    split; [apply Hpd'; lia|]. split; [done|]. split; [done|].
    unfold burg_emits in Hem. rewrite orb_false_l in Hem.
    destruct (Nat.eqb_spec (Datatypes.S k) q); [lia|]. by rewrite Hem.
Qed.

(** With the hierarchy flag the sinks receive, one after the other,
    what the calls for the orders 1, 2, ... write. *)
Lemma burg_loop_models k :
  (k ≤ p)%nat →
  ∃ st models,
    for_range 1 k (burg_iteration N p true) (init p) = Ok st
    ∧ length models = k
    ∧ (∀ j m, models !! j = Some m →
         burg_single N mean init (Datatypes.S j) = Ok m
         ∧ length (o_params m) = Datatypes.S j
         ∧ length (o_sigma2e m) = 1%nat ∧ length (o_gain m) = 1%nat)
    ∧ s_params_out st = concat (o_params <$> models)
    ∧ s_sigma2e_out st = concat (o_sigma2e <$> models)
    ∧ s_gain_out st = concat (o_gain <$> models).
Proof.
  induction k as [|k IH]; intros Hk.
  - destruct (Hinit p) as (_ & Hs & _); [lia|]. injection Hs as E1 E2 E3.
    exists (init p), []. by rewrite E1, E2, E3.
  - destruct IH as (st & models & Hrun & Hlen & Hmod & Hpo & Hso & Hgo); [lia|].
    destruct (burg_loop_pad (Datatypes.S k) true k)
      as (sq & sp & Hrq & Hrp & Hpad & Hshq & Hshp & Hsinks); [lia|lia|].
    rewrite Hrun in Hrp. injection Hrp as <-.
    destruct (burg_iteration_spec N (Datatypes.S k) false (Datatypes.S k) sq)
      as (mu & sq' & _ & Hq' & _ & _ & Hemq & _); [lia|lia|done|].
    destruct (burg_iteration_spec N p true (Datatypes.S k) st)
      as (mu' & st' & _ & Hp' & _ & _ & Hemp & _); [lia|lia|done|].
    destruct (burg_iteration_pad _ _ _ _ _ _ _ _ _ _ _ Hpad Hq' Hp')
      as (Es & Eg & Ea & EA & Hblock & _).
    unfold burg_emits in Hemq, Hemp.
    rewrite Nat.eqb_refl, orb_true_r in Hemq. rewrite orb_true_l in Hemp.
    destruct Hemq as (block & Hr & Hbl & Hq1 & Hq2 & Hq3).
    destruct Hemp as (block' & Hr' & _ & Hp1 & Hp2 & Hp3).
    rewrite (Hblock _ Hr) in Hr'. injection Hr' as <-.
    injection Hsinks as S1 S2 S3. rewrite S1 in Hq1. rewrite S2 in Hq2.
    rewrite S3 in Hq3. simpl in Hq1, Hq2, Hq3.
    exists st', (models ++ [burg_result N mean (Datatypes.S k) sq']).
    rewrite for_range_snoc, Hrun. run.
    replace (1 + k)%nat with (Datatypes.S k) by lia.
    split; [done|]. split; [rewrite length_app; simpl; lia|]. split.
    { intros j m Hj. destruct (decide (j < length models)%nat).
      - rewrite lookup_app_l in Hj by done. by apply Hmod.
      - assert (j = k) as ->.
        { apply lookup_lt_Some in Hj. rewrite length_app in Hj. simpl in Hj. lia. }
        rewrite lookup_app_r, Hlen, Nat.sub_diag in Hj by lia.
        injection Hj as <-. unfold burg_single.
        rewrite for_range_snoc, Hrq. run.
        replace (1 + k)%nat with (Datatypes.S k) by lia. rewrite Hq'. run.
        simpl. rewrite Hq1, Hq2, Hq3. done. }
    rewrite !fmap_app, !concat_app. simpl. rewrite !app_nil_r.
    rewrite Hp1, Hp2, Hp3, Hpo, Hso, Hgo, Hq1, Hq2, Hq3, Es, Eg. done.
Qed.
End Orders.

Lemma burg_init_pad (data : list Value) mean sm (q p : Z) sq sp :
  (0 ≤ q ≤ p)%Z → (p < size_max)%Z →
  burg_init data mean q sm = Ok sq → burg_init data mean p sm = Ok sp →
  burg_pad (replicate (Z.to_nat (p - q)) 0) sq sp.
Proof.
  intros Hq Hp. unfold burg_init. cbv zeta.
  set (f := if sm then _ else _).
  destruct (inner_product f f 0) as [s|]; [|done]. run.
  destruct (vget f 0) as [f0|]; [|done]. run.
  destruct (vget f (length data - 1)) as [fl|]; [|done]. run.
  unfold size_max in Hp.
  rewrite !wrap_small by lia.
  rewrite !vset_lt by (rewrite length_replicate; lia). run.
  intros [= <-] [= <-]. unfold burg_pad. simpl. do 6 (split; [done|]).
  replace (Z.to_nat (p + 1)) with (Z.to_nat (q + 1) + Z.to_nat (p - q))%nat
    by lia.
  rewrite replicate_add, insert_app_l; [done|].
  rewrite length_replicate. lia.
Qed.

Lemma burg_method_early (data : list Value) (maxorder : Z) sm h :
  data ≠ [] → clamp_maxorder maxorder (Z.of_nat (length data)) = 0%Z →
  burg_method data maxorder sm h
  = Ok (BurgOutput (Z.of_nat (length data))
          (sum data / Value_of_nat (length data)) 0 [] [] [] []).
Proof.
  intros Hne Hc. unfold burg_method. cbv zeta.
  rewrite (pairwise_mean_spec data Hne). run. by rewrite Hc.
Qed.

Lemma burg_method_loop (data : list Value) (maxorder : Z) sm h :
  data ≠ [] → (0 ≤ maxorder < size_max)%Z →
  let N := length data in
  let mean := sum data / Value_of_nat N in
  let p := Z.to_nat (clamp_maxorder maxorder (Z.of_nat N)) in
  (1 ≤ p)%nat →
  (2 ≤ N)%nat ∧ (p < N)%nat ∧ (Z.of_nat p < size_max)%Z
  ∧ burg_init data mean (Z.of_nat p) sm = Ok (burg_init_state data mean sm p)
  ∧ burg_shape N p 1 (burg_init_state data mean sm p)
  ∧ burg_sinks (burg_init_state data mean sm p) = ([], [], [])
  ∧ burg_method data maxorder sm h
    = st ← for_range 1 p (burg_iteration N p h) (burg_init_state data mean sm p);
      Ok (burg_result N mean p st).
Proof.
  intros Hne Hm N mean p Hp1. pose proof (length_ge_1 _ Hne) as HN.
  destruct (clamp_maxorder_bounds maxorder (length data) Hm HN) as [Hc Hlt].
  fold N in Hc, Hlt. fold p in Hlt.
  assert (Z.of_nat p = clamp_maxorder maxorder (Z.of_nat N)) as Ep
    by (unfold p; lia).
  assert (2 ≤ N)%nat as HN2 by lia.
  destruct (burg_init_spec data mean (Z.of_nat p) sm)
    as (st0 & Hinit & Hshape & _ & _ & Hsinks); [done|lia|].
  assert (burg_init_state data mean sm p = st0) as Est
    by (unfold burg_init_state; by rewrite Hinit).
  rewrite Nat2Z.id in Hshape. rewrite Est.
  do 6 (split; [done || lia|]).
  unfold burg_method. cbv zeta. rewrite (pairwise_mean_spec data Hne). run.
  fold N mean. rewrite <- Ep.
  destruct (Z.eqb_spec (Z.of_nat p) 0) as [?|_]; [lia|].
  rewrite Hinit. run. rewrite Nat2Z.id. done.
Qed.

Lemma clamp_maxorder_id (q N : nat) :
  (q < N)%nat → (Z.of_nat q < size_max)%Z →
  Z.to_nat (clamp_maxorder (Z.of_nat q) (Z.of_nat N)) = q.
Proof. intros Hq Hs. rewrite clamp_maxorder_spec by lia. lia. Qed.

Lemma last_concat_drop {A} (ls : list (list A)) (l : list A) :
  last ls = Some l → drop (length (concat ls) - length l) (concat ls) = l.
Proof.
  destruct ls as [|l' ls _] using rev_ind; [done|].
  rewrite last_snoc. intros [= ->].
  rewrite concat_app, length_app. simpl. rewrite app_nil_r.
  replace (length (concat ls) + length l - length l)%nat
    with (length (concat ls)) by lia.
  by rewrite drop_app_length.
Qed.

Lemma last_concat_singleton {A} (ls : list (list A)) (x : A) :
  last ls = Some [x] → last (concat ls) = Some x.
Proof.
  destruct ls as [|l' ls _] using rev_ind; [done|].
  rewrite last_snoc. intros [= ->].
  rewrite concat_app. simpl. by rewrite last_snoc.
Qed.

(** C3, amended.  For every nonempty input and every requested order
    below the largest [std::size_t], with [p] the order that is fitted:
    the call with the hierarchy flag emits, one after the other, what the
    calls without the flag for the orders 1, ..., [p] emit, the call for
    the order [k] emitting [k] coefficients, one [sigma2e] and one gain,
    which makes [p (p + 1) / 2] coefficients; the [p] autocorrelations are
    the same with and without the flag; if [p] is at least 1, the call
    without the flag emits what the call for the order [p] emits, that is
    the last [p] coefficients and the last [sigma2e] and gain of the call
    with the flag; if [p] is 0, it emits no coefficient, no [sigma2e] and
    no gain. *)
Theorem burg_hierarchy_models (data : list Value) (maxorder : Z)
    (subtract_mean : bool) :
  data ≠ [] → (0 ≤ maxorder < size_max)%Z →
  ∃ out_t out_f models,
    burg_method data maxorder subtract_mean true = Ok out_t
    ∧ burg_method data maxorder subtract_mean false = Ok out_f
    ∧ let p := Z.to_nat (clamp_maxorder maxorder (Z.of_nat (length data))) in
      o_maxorder out_t = Z.of_nat p ∧ o_maxorder out_f = Z.of_nat p
      ∧ length models = p
      ∧ (∀ k m, models !! k = Some m →
           burg_method data (Z.of_nat (Datatypes.S k)) subtract_mean false
           = Ok m
           ∧ length (o_params m) = Datatypes.S k
           ∧ length (o_sigma2e m) = 1%nat ∧ length (o_gain m) = 1%nat)
      ∧ o_params out_t = concat (o_params <$> models)
      ∧ o_sigma2e out_t = concat (o_sigma2e <$> models)
      ∧ o_gain out_t = concat (o_gain <$> models)
      ∧ (2 * length (o_params out_t) = p * (p + 1))%nat
      ∧ o_autocor out_t = o_autocor out_f
      ∧ length (o_autocor out_f) = p
      ∧ (p = 0%nat →
           o_params out_f = [] ∧ o_sigma2e out_f = [] ∧ o_gain out_f = [])
      ∧ ((1 ≤ p)%nat →
           last models = Some out_f
           ∧ length (o_params out_f) = p
           ∧ o_params out_f
             = drop (length (o_params out_t) - p) (o_params out_t)
           ∧ (∃ x, o_sigma2e out_f = [x] ∧ last (o_sigma2e out_t) = Some x)
           ∧ (∃ g, o_gain out_f = [g] ∧ last (o_gain out_t) = Some g)).
Proof.
  intros Hne Hm. pose proof (length_ge_1 _ Hne) as HN.
  set (N := length data) in *. set (mean := sum data / Value_of_nat N).
  set (p := Z.to_nat (clamp_maxorder maxorder (Z.of_nat N))).
  destruct (clamp_maxorder_bounds maxorder N Hm HN) as [Hc Hlt]. fold p in Hlt.
  destruct (decide (p = 0%nat)) as [Hp0|Hp1].
  { assert (clamp_maxorder maxorder (Z.of_nat N) = 0%Z) as Hz by lia.
    eexists _, _, []. rewrite !burg_method_early by done.
    split; [done|]. split; [done|]. simpl. fold N p. rewrite Hp0.
    repeat split; try done; try (intros; lia). }
  assert (1 ≤ p)%nat as Hp by lia. clear Hp1.
  set (init := burg_init_state data mean subtract_mean).
  destruct (burg_method_loop data maxorder subtract_mean true Hne Hm Hp)
    as (HN2 & _ & Hps & Hinit & Hshape & Hsinks & Hrun_t).
  destruct (burg_method_loop data maxorder subtract_mean false Hne Hm Hp)
    as (_ & _ & _ & _ & _ & _ & Hrun_f).
  fold N mean p init in Hinit, Hshape, Hsinks, Hrun_t, Hrun_f.
  assert (∀ q, (1 ≤ q ≤ p)%nat →
    (burg_shape N q 1 (init q) ∧ burg_sinks (init q) = ([], [], [])
     ∧ burg_pad (replicate (p - q) 0) (init q) (init p))
    ∧ burg_method data (Z.of_nat q) subtract_mean false
      = burg_single N mean init q) as Hq.
  { intros q Hq.
    assert (0 ≤ Z.of_nat q < size_max)%Z as Hqs by lia.
    pose proof (burg_method_loop data (Z.of_nat q) subtract_mean false Hne Hqs)
      as Hl. cbv zeta in Hl. fold N mean in Hl.
    rewrite clamp_maxorder_id in Hl by lia.
    destruct Hl as (_ & _ & _ & Hiq & Hsq & Hkq & Hrq); [lia|].
    fold init in Hiq, Hsq, Hkq, Hrq. split; [|done].
    split; [done|]. split; [done|].
    replace (p - q)%nat with (Z.to_nat (Z.of_nat p - Z.of_nat q)) by lia.
    by apply (burg_init_pad data mean subtract_mean); [lia|lia|..]. }
  destruct (burg_loop_hierarchy N p (init p) Hlt Hshape Hsinks p)
    as (st_t & st_f & blocks & Ht & Hf & Hcore & Hsh_t & Hsh_f & _ & _ & _ & _
        & _ & _ & Hlast); [done|].
  destruct (burg_loop_models N p mean init) with (k := p)
    as (st & models & Ht' & Hlen & Hmod & Hpo & Hso & Hgo);
    [lia|by intros q Hq'; apply Hq|done|].
  rewrite Ht in Ht'. injection Ht' as <-.
  rewrite Ht in Hrun_t. rewrite Hf in Hrun_f. revert Hrun_t Hrun_f. run.
  intros Hrun_t Hrun_f.
  exists (burg_result N mean p st_t), (burg_result N mean p st_f), models.
  split; [done|]. split; [done|]. cbv zeta. simpl.
  split; [done|]. split; [done|]. split; [done|]. split.
  { intros k m Hk. destruct (Hmod k m Hk) as (Hs & ?).
    rewrite (proj2 (Hq (Datatypes.S k) ltac:(apply lookup_lt_Some in Hk; lia))).
    done. }
  split; [done|]. split; [done|]. split; [done|].
  assert (last models = Some (burg_result N mean p st_f)) as Hlm.
  { rewrite last_lookup, Hlen.
    destruct (lookup_lt_is_Some_2 models (Nat.pred p)) as [m Hm']; [lia|].
    rewrite Hm'. f_equal. destruct (Hmod _ _ Hm') as (Hs & _).
    replace (Datatypes.S (Nat.pred p)) with p in Hs by lia.
    unfold burg_single in Hs. rewrite Hf in Hs. revert Hs. run. congruence. }
  assert (length (o_params (burg_result N mean p st_f)) = p
          ∧ length (o_sigma2e (burg_result N mean p st_f)) = 1%nat
          ∧ length (o_gain (burg_result N mean p st_f)) = 1%nat)
    as (Hlp & Hls & Hlg).
  { rewrite last_lookup, Hlen in Hlm. destruct (Hmod _ _ Hlm) as (_ & ? & ? & ?).
    split; [lia|done]. }
  simpl in Hlp, Hls, Hlg.
  split.
  { rewrite Hpo.
    assert (burg_blocks p (o_params <$> models)) as Hb.
    { split; [by rewrite length_fmap|]. intros j blk Hj.
      apply list_lookup_fmap_Some in Hj as (m & -> & Hj%Hmod). tauto. }
    by apply burg_blocks_length. }
  injection Hcore as _ _ _ _ _ _ Ea. split; [done|].
  destruct Hsh_f as (_ & _ & _ & Hla). split; [rewrite Hla; lia|].
  split; [lia|]. intros _. split; [done|]. split; [done|]. split.
  { rewrite Hpo. rewrite <- Hlp at 1. symmetry.
    apply (last_concat_drop (o_params <$> models)).
    rewrite fmap_last, Hlm. done. }
  split.
  - destruct (s_sigma2e_out st_f) as [|x [|]] eqn:E; simpl in Hls; try lia.
    exists x. split; [done|]. rewrite Hso. apply last_concat_singleton.
    rewrite fmap_last, Hlm. simpl. by rewrite E.
  - destruct (s_gain_out st_f) as [|x [|]] eqn:E; simpl in Hlg; try lia.
    exists x. split; [done|]. rewrite Hgo. apply last_concat_singleton.
    rewrite fmap_last, Hlm. simpl. by rewrite E.
Qed.

(** Decide an equation between computed outcomes. *)
Ltac compute_eq := apply (bool_decide_eq_true_1 _); vm_compute; reflexivity.
Ltac compute_ne := apply (bool_decide_eq_false_1 _); vm_compute; reflexivity.

Lemma burg_method_total (data : list Value) (maxorder : Z) sm h :
  data ≠ [] → (0 ≤ maxorder < size_max)%Z →
  ∃ out, burg_method data maxorder sm h = Ok out
    ∧ o_return out = Z.of_nat (length data)
    ∧ o_mean out = sum data / Value_of_nat (length data)
    ∧ o_maxorder out = clamp_maxorder maxorder (Z.of_nat (length data)).
Proof.
  intros Hne Hm. pose proof (length_ge_1 _ Hne) as HN.
  destruct (clamp_maxorder_bounds maxorder _ Hm HN) as [Hc Hlt].
  destruct (decide (clamp_maxorder maxorder (Z.of_nat (length data)) = 0%Z))
    as [Hz|Hnz].
  { rewrite burg_method_early by done. eexists. by rewrite Hz. }
  destruct (burg_method_loop data maxorder sm h Hne Hm)
    as (_ & _ & _ & _ & Hshape & _ & ->); [lia|].
  destruct (burg_loop_total _ _ h _ Hlt Hshape _ (Nat.le_refl _))
    as (st & -> & _). run.
  eexists. split; [done|]. simpl. split; [done|]. split; [done|]. lia.
Qed.

Lemma burg_hierarchy_models_witness :
  ∃ out_t out_f models,
    burg_method (Vz <$> [1; 2; 3; 5; 4]%Z) 3 true true = Ok out_t
    ∧ burg_method (Vz <$> [1; 2; 3; 5; 4]%Z) 3 true false = Ok out_f
    ∧ let p := Z.to_nat
                 (clamp_maxorder 3
                    (Z.of_nat (length (Vz <$> [1; 2; 3; 5; 4]%Z)))) in
      o_maxorder out_t = Z.of_nat p ∧ o_maxorder out_f = Z.of_nat p
      ∧ length models = p
      ∧ (∀ k m, models !! k = Some m →
           burg_method (Vz <$> [1; 2; 3; 5; 4]%Z) (Z.of_nat (Datatypes.S k))
             true false = Ok m
           ∧ length (o_params m) = Datatypes.S k
           ∧ length (o_sigma2e m) = 1%nat ∧ length (o_gain m) = 1%nat)
      ∧ o_params out_t = concat (o_params <$> models)
      ∧ o_sigma2e out_t = concat (o_sigma2e <$> models)
      ∧ o_gain out_t = concat (o_gain <$> models)
      ∧ (2 * length (o_params out_t) = p * (p + 1))%nat
      ∧ o_autocor out_t = o_autocor out_f
      ∧ length (o_autocor out_f) = p
      ∧ (p = 0%nat →
           o_params out_f = [] ∧ o_sigma2e out_f = [] ∧ o_gain out_f = [])
      ∧ ((1 ≤ p)%nat →
           last models = Some out_f
           ∧ length (o_params out_f) = p
           ∧ o_params out_f
             = drop (length (o_params out_t) - p) (o_params out_t)
           ∧ (∃ x, o_sigma2e out_f = [x] ∧ last (o_sigma2e out_t) = Some x)
           ∧ (∃ g, o_gain out_f = [g] ∧ last (o_gain out_t) = Some g)).
Proof. apply burg_hierarchy_models; done. Defined.

(** C3 as it is stated fails where the order that is fitted is 0: asked
    for the order 0, the call without the hierarchy flag returns at line
    168 and emits neither one [sigma2e] nor one gain. *)
Lemma burg_hierarchy_order_zero :
  ¬ ∃ out, burg_method (Vz <$> [1; 2; 3]%Z) 0 false false = Ok out
           ∧ length (o_params out) = Z.to_nat (o_maxorder out)
           ∧ length (o_sigma2e out) = 1%nat
           ∧ length (o_gain out) = 1%nat.
Proof.
  intros (out & Hrun & _ & Hs & _).
  rewrite burg_method_early in Hrun by done.
  injection Hrun as <-. done.
Qed.

(** The order written back and the value returned, where the arithmetic
    of line 165 does not wrap. *)
Lemma burg_maxorder_in_range (data : list Value) (maxorder : Z) sm h :
  data ≠ [] → (0 ≤ maxorder < size_max)%Z →
  let N := Z.of_nat (length data) in
  ∃ out, burg_method data maxorder sm h = Ok out
    ∧ o_maxorder out = (Z.min (maxorder + 1) N - 1)%Z
    ∧ (0 ≤ o_maxorder out ≤ Z.max 0 (N - 1))%Z
    ∧ (o_maxorder out ≤ maxorder)%Z
    ∧ o_return out = N.
Proof.
  intros Hne Hm N. pose proof (length_ge_1 _ Hne) as HN.
  destruct (burg_method_total data maxorder sm h Hne Hm)
    as (out & Hrun & Hret & _ & Hmax).
  exists out. rewrite Hmax, clamp_maxorder_spec by lia. fold N.
  split; [done|]. split; [done|]. split; [lia|]. split; [lia|done].
Qed.

(** With no samples the order wraps to the largest [std::size_t]. *)
Lemma clamp_maxorder_empty (maxorder : Z) :
  clamp_maxorder maxorder 0 = size_max.
Proof.
  unfold clamp_maxorder.
  pose proof (Z.mod_pos_bound (maxorder + 1) size_modulus eq_refl).
  unfold wrap at 2. rewrite Z.min_r by lia. done.
Qed.

(** Asked for the largest [std::size_t], line 165 keeps it, [Ak] gets
    [maxorder + 1 = 0] entries and line 182 writes outside it. *)
Lemma burg_method_wrapped (data : list Value) sm h :
  data ≠ [] → burg_method data size_max sm h = Stop OutOfRange.
Proof.
  intros Hne. pose proof (length_ge_1 _ Hne) as HN.
  unfold burg_method. cbv zeta. rewrite (pairwise_mean_spec data Hne). run.
  assert (clamp_maxorder size_max (Z.of_nat (length data)) = size_max) as ->.
  { unfold clamp_maxorder. change (wrap (size_max + 1)) with 0%Z.
    rewrite Z.min_l by lia. done. }
  change (size_max =? 0)%Z with false. cbv iota.
  unfold burg_init. cbv zeta. set (f := if sm then _ else _).
  assert (length f = length data) as Hf.
  { unfold f. destruct sm; [by rewrite length_fmap|done]. }
  rewrite inner_product_spec by done. run.
  destruct (vget_lt f 0) as (f0 & _ & ->); [lia|]. run.
  destruct (vget_lt f (length data - 1)) as (fl & _ & ->); [lia|]. run.
  done.
Qed.

(** * burg_method: the stated properties *)

(** C1.  In hierarchy mode, for every input and every requested order (a
    [std::size_t]), if [Dk] is nonzero on entry to every pass of the
    recursion, then the [sigma2e] emitted are as many as the order that is
    fitted, none of them is negative, and the one emitted at the order
    [k + 1] is the one emitted at the order [k] times [1 - mu * mu], with
    [mu] the reflection coefficient of that pass, and is at most the one
    emitted at the order [k].  The call returns for every nonempty input
    and every requested order below the largest [std::size_t]. *)
Theorem burg_sigma2e_nonincreasing (data : list Value) (maxorder : Z)
    (subtract_mean : bool) :
  (0 ≤ maxorder ≤ size_max)%Z →
  (∀ kp1 st,
     (1 ≤ kp1 ≤ Z.to_nat (clamp_maxorder maxorder (Z.of_nat (length data))))%nat →
     burg_entry data maxorder subtract_mean true kp1 = Ok st →
     s_Dk st ≠ 0) →
  (∀ out, burg_method data maxorder subtract_mean true = Ok out →
     length (o_sigma2e out) = Z.to_nat (o_maxorder out)
     ∧ Forall (λ x, 0 ≤ x) (o_sigma2e out)
     ∧ ∀ k x y,
         o_sigma2e out !! k = Some x →
         o_sigma2e out !! Datatypes.S k = Some y →
         y ≤ x
         ∧ ∃ st mu,
             burg_entry data maxorder subtract_mean true
               (Datatypes.S (Datatypes.S k)) = Ok st
             ∧ burg_mu (Datatypes.S (Datatypes.S k)) st = Ok mu
             ∧ y = x * (1 - mu * mu))
  ∧ (data ≠ [] → maxorder ≠ size_max →
     ∃ out, burg_method data maxorder subtract_mean true = Ok out).
Proof.
  intros Hm HDk.
  destruct (decide (data = [])) as [->|Hne]; [by split|].
  destruct (decide (maxorder = size_max)) as [->|Hmax].
  { rewrite burg_method_wrapped by done. by split. }
  destruct (burg_sigma2e_in_range data maxorder subtract_mean)
    as (out & Hrun & Hout); [done|lia|done|].
  split; [|by exists out]. intros out' Hrun'.
  rewrite Hrun in Hrun'. by injection Hrun' as <-.
Qed.

Lemma burg_sigma2e_nonincreasing_witness :
  (∀ out, burg_method (Vz <$> [1; 2; 3; 5; 4]%Z) 3 true true = Ok out →
     length (o_sigma2e out) = Z.to_nat (o_maxorder out)
     ∧ Forall (λ x, 0 ≤ x) (o_sigma2e out)
     ∧ ∀ k x y,
         o_sigma2e out !! k = Some x →
         o_sigma2e out !! Datatypes.S k = Some y →
         y ≤ x
         ∧ ∃ st mu,
             burg_entry (Vz <$> [1; 2; 3; 5; 4]%Z) 3 true true
               (Datatypes.S (Datatypes.S k)) = Ok st
             ∧ burg_mu (Datatypes.S (Datatypes.S k)) st = Ok mu
             ∧ y = x * (1 - mu * mu))
  ∧ (Vz <$> [1; 2; 3; 5; 4]%Z ≠ [] → 3%Z ≠ size_max →
     ∃ out, burg_method (Vz <$> [1; 2; 3; 5; 4]%Z) 3 true true = Ok out).
Proof.
  apply (burg_sigma2e_nonincreasing (Vz <$> [1; 2; 3; 5; 4]%Z) 3 true).
  - done.
  - intros kp1 st Hk Hrun.
    change (1 ≤ kp1 ≤ 3)%nat in Hk.
    assert (kp1 = 1 ∨ kp1 = 2 ∨ kp1 = 3)%nat as [-> | [-> | ->]] by lia;
      vm_compute in Hrun; injection Hrun as <-; done.
Defined.

(** C2.  The order written back by line 165 is not [min(p_in + 1, N) - 1]
    for every input: asked for the largest [std::size_t] with three
    samples, the call keeps that order instead of 2 and then writes
    outside [Ak]; with no samples the order becomes the largest
    [std::size_t] whatever was asked for.  ([burg_maxorder_in_range] has
    the claim for nonempty data and smaller orders.) *)
Theorem burg_maxorder_wraps :
  clamp_maxorder size_max 3 = size_max
  ∧ (Z.min (size_max + 1) 3 - 1 = 2)%Z
  ∧ burg_method (Vz <$> [1; 2; 3]%Z) size_max false false = Stop OutOfRange
  ∧ ∀ maxorder, clamp_maxorder maxorder 0 = size_max.
Proof.
  split; [done|]. split; [done|]. split; [compute_eq|].
  apply clamp_maxorder_empty.
Qed.

(** C4.  For every nonempty input the pairwise summation of lines 145-162
    yields the sum of the inputs divided by their number, exactly; this is
    the mean of every call that returns, and the call returns for every
    requested order below the largest [std::size_t]. *)
Theorem burg_mean_exact (data : list Value) :
  data ≠ [] →
  pairwise_mean data = Ok (sum data / Value_of_nat (length data))
  ∧ (∀ maxorder sm h out,
       burg_method data maxorder sm h = Ok out →
       o_mean out = sum data / Value_of_nat (length data))
  ∧ (∀ maxorder sm h, (0 ≤ maxorder < size_max)%Z →
       ∃ out, burg_method data maxorder sm h = Ok out).
Proof.
  intros Hne. split; [by apply pairwise_mean_spec|]. split.
  - intros maxorder sm h out. unfold burg_method. cbv zeta.
    rewrite (pairwise_mean_spec data Hne). run.
    destruct (_ =? _)%Z; [by intros [= <-]|].
    destruct (burg_init _ _ _ _) as [st0|]; [|done]. run.
    destruct (for_range _ _ _ _) as [st|]; [|done]. run. by intros [= <-].
  - intros maxorder sm h Hm.
    destruct (burg_method_total data maxorder sm h Hne Hm) as (out & Hrun & _).
    by exists out.
Qed.

Lemma burg_mean_exact_witness :
  pairwise_mean (Vz <$> [1; 2; 3; 5; 4]%Z)
  = Ok (sum (Vz <$> [1; 2; 3; 5; 4]%Z)
        / Value_of_nat (length (Vz <$> [1; 2; 3; 5; 4]%Z)))
  ∧ (∀ maxorder sm h out,
       burg_method (Vz <$> [1; 2; 3; 5; 4]%Z) maxorder sm h = Ok out →
       o_mean out
       = sum (Vz <$> [1; 2; 3; 5; 4]%Z)
         / Value_of_nat (length (Vz <$> [1; 2; 3; 5; 4]%Z)))
  ∧ (∀ maxorder sm h, (0 ≤ maxorder < size_max)%Z →
       ∃ out, burg_method (Vz <$> [1; 2; 3; 5; 4]%Z) maxorder sm h = Ok out).
Proof. apply burg_mean_exact. done. Defined.

(** C7.  With no samples the call does not return at line 168 with the
    order 0: line 162 reads [b[0]] of the empty vector [b], and the order
    computed by line 165 is the largest [std::size_t], not 0. *)
Theorem burg_empty_input (maxorder : Z) (sm h : bool) :
  burg_method [] maxorder sm h = Stop OutOfRange
  ∧ clamp_maxorder maxorder 0 = size_max
  ∧ clamp_maxorder maxorder 0 ≠ 0%Z.
Proof.
  split; [done|]. rewrite clamp_maxorder_empty. by split.
Qed.

(** * zohar_linear_solve: the stated properties *)

(** C5.  The symmetric form with [a = [0, 0, 0]] and [d = [1, 2, 3, 4]]
    writes [[1, 2, 3, 4]]. *)
Theorem zohar_identity :
  zohar_linear_solve_symmetric (Vz <$> [0; 0; 0]%Z) (Vz <$> [1; 2; 3; 4]%Z)
  = Ok (Vz <$> [1; 2; 3; 4]%Z).
Proof. compute_eq. Qed.

(** The nontrivial symmetric scenario: [a = [1/2, 1/4]], [d = [1, 0, 0]]
    gives [s = [4/3, -2/3, 0]], the solution of [L s = d]. *)
Example zohar_symmetric_scenario :
  zohar_linear_solve_symmetric [Vz 1 / Vz 2; Vz 1 / Vz 4] (Vz <$> [1; 0; 0]%Z)
  = Ok [Vz 4 / Vz 3; - (Vz 2 / Vz 3); Vz 0].
Proof. compute_eq. Qed.

(** The pairwise-sum scenario: the mean of [[10^16, 1, -10^16, 1]]. *)
Example pairwise_mean_scenario :
  pairwise_mean (Vz <$> [10000000000000000; 1; -10000000000000000; 1]%Z)
  = Ok (Vz 1 / Vz 2).
Proof. compute_eq. Qed.

(** * Explicit errors *)

Create HintDb no_throw discriminated.

Lemma no_throw_Ok {A} (a : A) : no_throw (Ok a).
Proof. done. Qed.

Lemma no_throw_bind {A B} (m : result A) (k : A → result B) :
  no_throw m → (∀ a, no_throw (k a)) → no_throw (m ≫= k).
Proof.
  destruct m as [a|s]; [intros _ H; apply H|].
  intros H _ [= ->]. by apply H.
Qed.

Lemma no_throw_assert c : no_throw (assert c).
Proof. by destruct c. Qed.

Lemma no_throw_vget {A} (v : list A) i : no_throw (vget v i).
Proof. unfold vget. by destruct (v !! i). Qed.

Lemma no_throw_vset {A} (v : list A) i x : no_throw (vset v i x).
Proof. unfold vset. by case_decide. Qed.

Lemma no_throw_vrange {A} (v : list A) lo hi : no_throw (vrange v lo hi).
Proof. unfold vrange. by case_decide. Qed.

Lemma no_throw_vfrom {A} (v : list A) lo : no_throw (vfrom v lo).
Proof. unfold vfrom. by case_decide. Qed.

Lemma no_throw_read {A} (m : member A) : no_throw (read m).
Proof. by destruct m. Qed.

Lemma no_throw_inner_product r1 r2 init : no_throw (inner_product r1 r2 init).
Proof.
  revert r2 init. induction r1 as [|x r1 IH]; intros [|y r2] init; simpl;
    try done.
Qed.

Lemma no_throw_for_range {S} lo count (body : nat → S → result S) s :
  (∀ i s, no_throw (body i s)) → no_throw (for_range lo count body s).
Proof.
  intros Hb. revert lo s. induction count as [|c IH]; intros lo s; [done|].
  cbn [for_range]. apply no_throw_bind; [apply Hb|]. intros s'. apply IH.
Qed.

Lemma no_throw_while_halving {S} fuel i (body : nat → S → result S) s :
  (∀ i s, no_throw (body i s)) → no_throw (while_halving fuel i body s).
Proof.
  intros Hb. revert i s. induction fuel as [|fuel IH]; intros i s; [done|].
  cbn [while_halving]. cbv zeta. destruct (_ =? _)%nat; [done|].
  apply no_throw_bind; [apply Hb|]. intros s'. apply IH.
Qed.

#[global] Hint Resolve no_throw_Ok no_throw_assert no_throw_vget no_throw_vset
  no_throw_vrange no_throw_vfrom no_throw_read no_throw_inner_product
  : no_throw.

(** Walk through a sequence of calls none of which throws. *)
Ltac no_throw :=
  repeat first
    [ progress auto with no_throw
    | apply no_throw_bind; [|intros ?]
    | apply no_throw_for_range; intros ? ?
    | apply no_throw_while_halving; intros ? ?
    | match goal with
      | |- no_throw (let '(_, _) := ?p in _) => destruct p
      | |- no_throw (if ?c then _ else _) => destruct c
      | |- no_throw (match ?e with _ => _ end) => destruct e
      end
    | progress cbv zeta ].

Lemma no_throw_pairwise_mean f : no_throw (pairwise_mean f).
Proof. unfold pairwise_mean, pairwise_copy, pairwise_start, pairwise_fold. no_throw. Qed.

Lemma no_throw_burg_iteration N p h kp1 st :
  no_throw (burg_iteration N p h kp1 st).
Proof.
  unfold burg_iteration, burg_mu, burg_sweep, burg_emit, burg_update,
    burg_residuals. no_throw.
Qed.

Lemma no_throw_burg_method data maxorder sm h :
  no_throw (burg_method data maxorder sm h).
Proof.
  unfold burg_method. cbv zeta.
  apply no_throw_bind; [apply no_throw_pairwise_mean|]. intros mean.
  destruct (_ =? _)%Z; [done|].
  apply no_throw_bind; [unfold burg_init; no_throw|]. intros st.
  apply no_throw_bind; [|done].
  apply no_throw_for_range. intros. apply no_throw_burg_iteration.
Qed.

Lemma no_throw_empirical_variance e N i : no_throw (empirical_variance e N i).
Proof. unfold empirical_variance, empirical_variance_zero. no_throw. Qed.

Lemma no_throw_zohar_rest (a r d : list Value) n :
  no_throw (d0 ← vget d 0; a0 ← vget a 0; r0 ← vget r 0;
            st ← for_range 1 (n - 1) (zohar_iteration a r d)
                   (ZoharState [d0] [- a0] [- r0] (1 - a0 * r0) 0);
            zohar_last r d n st).
Proof.
  unfold zohar_iteration, zohar_inner, zohar_last. no_throw.
Qed.

Lemma zohar_throws_iff (a r d : list Value) :
  zohar_linear_solve a r d = Stop InvalidArgument ↔ (length a < 1)%nat.
Proof.
  unfold zohar_linear_solve. cbv zeta.
  destruct (Z.ltb_spec (Z.of_nat (length a)) 1) as [Hlt|Hge].
  - split; [lia|done].
  - split; [|lia]. intros H. by apply no_throw_zohar_rest in H.
Qed.

(** C6.  Each form of zohar_linear_solve ends in the invalid-argument
    exception exactly when the range of [a] has fewer than one element,
    and no other entry point of the library ends in it: burg_method, the
    empirical variances, and the operations of the generator and of the
    iterator. *)
Theorem zohar_only_explicit_error :
  (∀ a r d, zohar_linear_solve a r d = Stop InvalidArgument
            ↔ (length a < 1)%nat)
  ∧ (∀ a r d, zohar_linear_solve_inplace a r d = Stop InvalidArgument
              ↔ (length a < 1)%nat)
  ∧ (∀ a d, zohar_linear_solve_symmetric a d = Stop InvalidArgument
            ↔ (length a < 1)%nat)
  ∧ (∀ data maxorder sm h, no_throw (burg_method data maxorder sm h))
  ∧ (∀ e N i, no_throw (empirical_variance e N i))
  ∧ (∀ e N i, no_throw (empirical_variance_function e N i))
  ∧ (∀ e g, no_throw (generator_call e g))
  ∧ (∀ N, no_throw (iterator_begin N))
  ∧ (∀ it, no_throw (iterator_preincrement it))
  ∧ (∀ it, no_throw (iterator_postincrement it))
  ∧ (∀ it other, no_throw (iterator_eq it other))
  ∧ (∀ it other, no_throw (iterator_ne it other))
  ∧ (∀ e it, no_throw (iterator_deref e it)).
Proof.
  assert (∀ a r d, zohar_linear_solve_inplace a r d = Stop InvalidArgument
                   ↔ (length a < 1)%nat) as Hin.
  { intros a r d. rewrite <- (zohar_throws_iff a r d).
    unfold zohar_linear_solve_inplace.
    destruct (zohar_linear_solve a r d) as [s|e]; [done|].
    rewrite bind_Stop_l. done. }
  split; [apply zohar_throws_iff|]. split; [done|].
  split; [intros a d; apply Hin|].
  split; [apply no_throw_burg_method|].
  split; [apply no_throw_empirical_variance|].
  split; [apply no_throw_empirical_variance|].
  split.
  { intros e g. unfold generator_call.
    apply no_throw_bind; [apply no_throw_empirical_variance|done]. }
  split; [intros N; unfold iterator_begin; no_throw|].
  split; [intros it; unfold iterator_preincrement; no_throw|].
  split; [intros it; unfold iterator_postincrement; no_throw|].
  assert (∀ it other, no_throw (iterator_eq it other)) as Heq
    by (intros it other; unfold iterator_eq; no_throw).
  split; [done|].
  split; [intros it other; unfold iterator_ne; no_throw|].
  intros e it. unfold iterator_deref.
  apply no_throw_bind; [no_throw|]. intros i.
  apply no_throw_bind; [no_throw|]. intros _.
  apply no_throw_empirical_variance.
Qed.

(** * Empirical variances *)

Lemma wrap_sub (x y : Z) : wrap (wrap x - wrap y) = wrap (x - y).
Proof. unfold wrap. by rewrite <- Zminus_mod. Qed.

Lemma wrap_sub_l (x y : Z) : wrap (wrap x - y) = wrap (x - y).
Proof. unfold wrap. by rewrite Zminus_mod_idemp_l. Qed.

Lemma wrap_mul_r (x y : Z) : wrap (x * wrap y) = wrap (x * y).
Proof. unfold wrap. by rewrite Zmult_mod_idemp_r. Qed.

Lemma YuleWalker_den_eq N : YuleWalker_den N = Value_of_Z (wrap (N * (N + 2))).
Proof. unfold YuleWalker_den. by rewrite wrap_mul_r. Qed.

Lemma Burg_den_eq N i : Burg_den N i = Value_of_Z (wrap (N + 1 - i)).
Proof. unfold Burg_den. by rewrite wrap_sub_l. Qed.

Lemma LSF_den_eq N i : LSF_den N i = Value_of_Z (wrap (N + 2 - 2 * i)).
Proof. unfold LSF_den. by rewrite wrap_sub. Qed.

Lemma LSFB_den_eq N i :
  LSFB_den N i = Value_of_Z (2 * N + 3 - 3 * i) / 2.
Proof.
  unfold LSFB_den, Value_of_Z.
  rewrite Z2Qc_inj_sub, Z2Qc_inj_add, !Z2Qc_inj_mul, Z2Qc_inj_2.
  by field.
Qed.

(** There the code agrees with the table. *)
Lemma empirical_variance_in_range (e : estimation_method) (N i : Z) :
  (1 ≤ N)%Z → (0 ≤ i ≤ N)%Z →
  (i ≠ 0%Z → empirical_variance_exact e N i) →
  empirical_variance e N i = Ok (empirical_variance_table e N i).
Proof.
  intros HN Hi Hex. unfold empirical_variance, empirical_variance_table.
  destruct (Z.leb_spec 1 N); [|lia]. destruct (Z.leb_spec 0 i); [|lia].
  destruct (Z.leb_spec i N); [|lia]. run. cbv zeta.
  destruct (Z.eqb_spec i 0) as [->|Hnz].
  - unfold empirical_variance_zero.
    destruct (MeanHandling e); [|done].
    destruct (Z.leb_spec 1 N); [|lia]. by run.
  - specialize (Hex Hnz).
    destruct e as [m|m|m|m]; simpl in Hex; apply (f_equal Ok).
    + unfold YuleWalker_num. rewrite YuleWalker_den_eq, !wrap_small by nia.
      unfold Value_of_Z.
      by rewrite Z2Qc_inj_sub, Z2Qc_inj_mul, Z2Qc_inj_add, Z2Qc_inj_2.
    + rewrite Burg_den_eq, wrap_small by lia. unfold Value_of_Z.
      by rewrite Z2Qc_inj_sub, Z2Qc_inj_add, Z2Qc_inj_1.
    + rewrite LSFB_den_eq. apply (f_equal (Qcdiv 1)). unfold Value_of_Z.
      rewrite Z2Qc_inj_sub, Z2Qc_inj_add, !Z2Qc_inj_mul, Z2Qc_inj_2.
      by field.
    + rewrite LSF_den_eq, wrap_small by lia. unfold Value_of_Z.
      by rewrite Z2Qc_inj_sub, Z2Qc_inj_add, Z2Qc_inj_mul, Z2Qc_inj_2.
Qed.

(** The scenarios of section 8 of the specification. *)
Lemma empirical_variance_scenarios :
  empirical_variance (Burg mean_subtracted) 100 10 = Ok (1 / Value_of_Z 91)
  ∧ empirical_variance (LSF mean_subtracted) 100 10 = Ok (1 / Value_of_Z 82)
  ∧ empirical_variance (YuleWalker mean_retained) 100 0 = Ok 0.
Proof. repeat split; compute_eq. Qed.

(** C8.  The code does not return the value of the table for every
    [(N, i)] with [N >= 1] and [0 <= i <= N]: LSF at [(100, 60)] computes
    [N + 2 - 2*i] in [std::size_t] and returns [1 / (2^64 - 18)], where the
    table has [- 1/18]; YuleWalker at [(2^32, 1)] computes [N*(N + 2)] in
    [std::size_t] and divides by [2^33], where the table has
    [2^32 * (2^32 + 2)].  ([empirical_variance_in_range] has the claim
    where no integer expression wraps, [empirical_variance_scenarios] its
    three scenarios.) *)
Theorem empirical_variance_wraps :
  empirical_variance (LSF mean_subtracted) 100 60
  = Ok (1 / Value_of_Z 18446744073709551598)
  ∧ empirical_variance_table (LSF mean_subtracted) 100 60
    = - (1 / Value_of_Z 18)
  ∧ empirical_variance (LSF mean_subtracted) 100 60
    ≠ Ok (empirical_variance_table (LSF mean_subtracted) 100 60)
  ∧ empirical_variance (YuleWalker mean_subtracted) 4294967296 1
    = Ok (Value_of_Z 4294967295 / Value_of_Z 8589934592)
  ∧ empirical_variance_table (YuleWalker mean_subtracted) 4294967296 1
    = Value_of_Z 4294967295 / Value_of_Z 18446744082299486208
  ∧ empirical_variance (YuleWalker mean_subtracted) 4294967296 1
    ≠ Ok (empirical_variance_table (YuleWalker mean_subtracted) 4294967296 1).
Proof. repeat split; (compute_eq || compute_ne). Qed.

(** C10, amended.  For every [(N, i)] with [N >= 1] and [1 <= i <= N]
    ([i = 0] does not reach these divisions), the denominator of LSF is
    zero exactly when [2 i = N + 2], and the denominator of LSFB is zero
    exactly when [3 i = 2 N + 3]. *)
Theorem empirical_variance_denominators (N i : Z) :
  (1 ≤ N ≤ size_max)%Z → (1 ≤ i ≤ N)%Z →
  (LSF_den N i = 0 ↔ (2 * i = N + 2)%Z)
  ∧ (LSFB_den N i = 0 ↔ (3 * i = 2 * N + 3)%Z).
Proof.
  unfold size_max. rewrite size_modulus_eq. intros HN Hi. split.
  - rewrite LSF_den_eq. unfold Value_of_Z. rewrite <- Z2Qc_inj_0, Z2Qc_inj_iff.
    unfold wrap. rewrite size_modulus_eq. split.
    + intros H. apply Z.mod_divide in H; [|lia]. destruct H as [c Hc]. lia.
    + intros H. replace (N + 2 - 2 * i)%Z with 0%Z by lia. done.
  - rewrite LSFB_den_eq. unfold Value_of_Z. split.
    + intros H.
      assert (Qc_of_Z (2 * N + 3 - 3 * i) = 0) as H0.
      { rewrite <- (Qcmult_div_r (Qc_of_Z (2 * N + 3 - 3 * i)) 2), H
          by done. ring. }
      rewrite <- Z2Qc_inj_0 in H0. apply Z2Qc_inj in H0. lia.
    + intros H. replace (2 * N + 3 - 3 * i)%Z with 0%Z by lia.
      rewrite Z2Qc_inj_0. by field.
Qed.

Lemma empirical_variance_denominators_witness :
  (LSF_den 100 10 = 0 ↔ (2 * 10 = 100 + 2)%Z)
  ∧ (LSFB_den 100 10 = 0 ↔ (3 * 10 = 2 * 100 + 3)%Z).
Proof. apply empirical_variance_denominators; [done|lia]. Defined.

(** C10 as it is stated fails: within the precondition, LSF at [(2, 2)]
    and LSFB at [(3, 3)] divide by zero. *)
Lemma empirical_variance_zero_denominators :
  (1 ≤ 2)%Z ∧ (0 ≤ 2 ≤ 2)%Z ∧ (1 ≤ 3)%Z ∧ (0 ≤ 3 ≤ 3)%Z ∧
  LSF_den 2 2 = 0 ∧ LSFB_den 3 3 = 0
  ∧ empirical_variance (LSF mean_subtracted) 2 2 = Ok (1 / 0)
  ∧ empirical_variance (LSFB mean_subtracted) 3 3 = Ok (1 / 0).
Proof. do 4 (split; [done|]). repeat split; compute_eq. Qed.

(** * The iterator over the empirical variances *)

Lemma iterator_ne_end (N i : Z) :
  (1 ≤ N)%Z → (N < size_max)%Z →
  iterator_ne (Iterator N (Holds i)) iterator_end
  = Ok (negb (i =? N + 1)%Z).
Proof.
  unfold size_max. intros HN HNs. unfold iterator_ne, iterator_eq. simpl.
  destruct (Z.eqb_spec N 0); [lia|]. run. by rewrite wrap_small by lia.
Qed.

(** The traversal with [operator++()] visits the orders 0, ..., N. *)
Lemma traverse_preincrement_spec (e : estimation_method) (N : Z) n fuel i out :
  (1 ≤ N)%Z → (N < size_max)%Z → (0 ≤ i)%Z → (i + Z.of_nat n = N + 1)%Z →
  (n < fuel)%nat →
  ∃ vs, traverse_preincrement e fuel (Iterator N (Holds i)) iterator_end out
        = Ok (out ++ vs)
    ∧ length vs = n
    ∧ ∀ k v, vs !! k = Some v →
        empirical_variance e N (i + Z.of_nat k) = Ok v.
Proof.
  intros HN HNs.
  revert i fuel out. induction n as [|n IH]; intros i fuel out Hi Hin Hfuel.
  - destruct fuel as [|fuel]; [lia|]. exists []. cbn [traverse_preincrement].
    rewrite iterator_ne_end by done. run.
    destruct (Z.eqb_spec i (N + 1)); [|lia]. simpl.
    by rewrite app_nil_r.
  - destruct fuel as [|fuel]; [lia|]. cbn [traverse_preincrement].
    rewrite iterator_ne_end by done. run.
    destruct (Z.eqb_spec i (N + 1)); [lia|]. simpl.
    unfold iterator_deref. simpl. run.
    destruct (Z.leb_spec i N); [|lia]. simpl. run.
    destruct (empirical_variance e N i) as [v|s] eqn:Hv.
    2:{ exfalso. revert Hv. unfold empirical_variance.
        destruct (Z.leb_spec 1 N); [|lia]. destruct (Z.leb_spec 0 i); [|lia].
        destruct (Z.leb_spec i N); [|lia]. run.
        destruct (i =? 0)%Z; [|by destruct e].
        unfold empirical_variance_zero. destruct (MeanHandling e); [|done].
        destruct (Z.leb_spec 1 N); [|lia]. by run. }
    run. unfold iterator_preincrement. simpl.
    destruct (Z.leb_spec 1 N); [|lia]. simpl. run.
    rewrite wrap_small by (unfold size_max in HNs; lia).
    destruct (IH (i + 1)%Z fuel (out ++ [v])) as (vs & -> & Hlen & Hvs);
      [lia|lia|lia|].
    exists (v :: vs). rewrite <- app_assoc. split; [done|].
    split; [simpl; lia|]. intros [|k] w.
    + intros [= <-]. by rewrite Z.add_0_r.
    + intros Hk. apply (Hvs k) in Hk.
      by replace (i + Z.of_nat (Datatypes.S k))%Z
        with (i + 1 + Z.of_nat k)%Z by lia.
Qed.

(** C9.  For every [N] with [1 <= N] below the largest [std::size_t],
    the iterator returned by the post-increment of the start iterator
    does not hold the order from before the increment: its member [i] is
    left without a value by the constructor of line 695, so dereferencing
    it reads an indeterminate value, and the traversal with [*it++] stops
    there instead of yielding [v_0(N), ..., v_N(N)].  The iterator itself
    does advance by one, and the traversal with the pre-increment yields
    the [N + 1] values in order. *)
Theorem iterator_postincrement_indeterminate (e : estimation_method) (N : Z) :
  (1 ≤ N)%Z → (N < size_max)%Z →
  ∃ first copy first',
    iterator_begin N = Ok first
    ∧ iterator_postincrement first = Ok (copy, first')
    ∧ it_i first = Holds 0%Z
    ∧ it_i copy = Indeterminate
    ∧ it_i first' = Holds 1%Z
    ∧ iterator_deref e copy = Stop IndeterminateRead
    ∧ (∀ fuel, traverse_postincrement e (Datatypes.S fuel) first
                 iterator_end [] = Stop IndeterminateRead)
    ∧ ∃ vs, traverse_preincrement e (Z.to_nat N + 2) first iterator_end []
            = Ok vs
         ∧ length vs = Z.to_nat (N + 1)
         ∧ ∀ k v, vs !! k = Some v →
             empirical_variance e N (Z.of_nat k) = Ok v.
Proof.
  intros HN HNs. unfold iterator_begin.
  destruct (Z.leb_spec 1 N); [|lia]. simpl. run.
  eexists _, _, _. split; [done|]. unfold iterator_postincrement. simpl.
  destruct (Z.leb_spec 1 N); [|lia]. simpl. run.
  split; [done|]. split; [done|]. split; [done|]. split; [done|].
  split; [done|]. split.
  - intros fuel. cbn [traverse_postincrement].
    rewrite iterator_ne_end by done. run.
    destruct (Z.eqb_spec 0 (N + 1)); [lia|]. simpl.
    unfold iterator_postincrement. simpl.
    destruct (Z.leb_spec 1 N); [|lia]. simpl. by run.
  - destruct (traverse_preincrement_spec e N (Z.to_nat (N + 1))
                (Z.to_nat N + 2) 0 []) as (vs & Hrun & Hlen & Hvs);
      [done|done|lia|lia|lia|].
    exists vs. split; [done|]. split; [done|]. intros k v Hk.
    apply Hvs in Hk. by rewrite Z.add_0_l in Hk.
Qed.

Lemma iterator_postincrement_indeterminate_witness :
  ∃ first copy first',
    iterator_begin 3 = Ok first
    ∧ iterator_postincrement first = Ok (copy, first')
    ∧ it_i first = Holds 0%Z
    ∧ it_i copy = Indeterminate
    ∧ it_i first' = Holds 1%Z
    ∧ iterator_deref (Burg mean_subtracted) copy = Stop IndeterminateRead
    ∧ (∀ fuel, traverse_postincrement (Burg mean_subtracted)
                 (Datatypes.S fuel) first iterator_end []
               = Stop IndeterminateRead)
    ∧ ∃ vs, traverse_preincrement (Burg mean_subtracted) (Z.to_nat 3 + 2)
              first iterator_end [] = Ok vs
         ∧ length vs = Z.to_nat (3 + 1)
         ∧ ∀ k v, vs !! k = Some v →
             empirical_variance (Burg mean_subtracted) 3 (Z.of_nat k) = Ok v.
Proof. apply iterator_postincrement_indeterminate; done. Defined.

